(** * Chunking and retrieval core of crypto-regulator-checker

    Shallow embedding of
    - [backend/src/document_processing/chunking.py]
      ([ChunkConfig], [TextChunk], [SimpleChunker], [RecursiveChunker]),
    - [backend/src/vector_store/memory_store.py] ([MemoryStore]),
    - [backend/src/vector_store/memory.py] ([MemoryVectorStore]),
    - [backend/src/rag/retrieval.py] ([RetrievalConfig],
      [RetrievalStrategy._filter_duplicates], [SemanticRetrieval]).

    Python strings are lists of characters; a character is an [ascii]
    read as a Latin-1 code point.  Python ints used as positions are
    [nat] where the code only ever produces non-negative values, and [Z]
    where [str.find] may return -1.  NumPy floats are real numbers. *)

From Stdlib Require Import Ascii String.
From Stdlib Require Import Reals Lra.
From Stdlib Require Import List Bool Arith Lia ZArith.
From Stdlib Require Import Sorting.Sorted Sorting.Permutation.
Import ListNotations.

Local Open Scope nat_scope.

(** ** Python strings *)

Definition pystr := list ascii.

Definition s2l (s : string) : pystr := list_ascii_of_string s.

Definition nl : ascii := Ascii.ascii_of_nat 10.

(** [str.isspace] for a Latin-1 code point: \t \n \v \f \r, the
    separators \x1c-\x1f, space, NEL (\x85) and NBSP (\xa0).  The regex
    class [\s] on [str] patterns is the same set. *)
Definition is_space (c : ascii) : bool :=
  let n := nat_of_ascii c in
  ((9 <=? n) && (n <=? 13)) || ((28 <=? n) && (n <=? 32))
  || (n =? 133) || (n =? 160).

Definition ascii_eqb (a b : ascii) : bool :=
  if ascii_dec a b then true else false.

Fixpoint drop_while (p : ascii -> bool) (s : pystr) : pystr :=
  match s with
  | [] => []
  | c :: r => if p c then drop_while p r else s
  end.

(** [str.strip()] *)
Definition strip (s : pystr) : pystr :=
  rev (drop_while is_space (rev (drop_while is_space s))).

(** [s[i:j]] for non-negative [i], [j] (Python clamps to the length). *)
Definition slice (s : pystr) (i j : nat) : pystr := firstn (j - i) (skipn i s).

(** [s.split(c)] for a one-character separator. *)
Fixpoint split_on (c : ascii) (s : pystr) : list pystr :=
  match s with
  | [] => [[]]
  | x :: r =>
      if ascii_eqb x c then [] :: split_on c r
      else match split_on c r with
           | p :: ps => (x :: p) :: ps
           | [] => [[x]]
           end
  end.

(** [sep.join(l)] *)
Fixpoint join (sep : pystr) (l : list pystr) : pystr :=
  match l with
  | [] => []
  | [x] => x
  | x :: r => x ++ sep ++ join sep r
  end.

Fixpoint prefixb (p s : pystr) : bool :=
  match p, s with
  | [], _ => true
  | a :: p', b :: s' => ascii_eqb a b && prefixb p' s'
  | _ :: _, [] => false
  end.

Fixpoint find_aux (sub s : pystr) (k : nat) : Z :=
  if prefixb sub s then Z.of_nat k
  else match s with
       | [] => (-1)%Z
       | _ :: r => find_aux sub r (S k)
       end.

(** [s.find(sub, start)]: lowest index [>= start] of [sub], or -1. *)
Definition py_find (s sub : pystr) (start : nat) : Z :=
  if start <=? length s then find_aux sub (skipn start s) start else (-1)%Z.

Definition is_nonempty (s : pystr) : bool :=
  match s with [] => false | _ => true end.

(** ** ChunkConfig and TextChunk *)

Record ChunkConfig := {
  chunk_size : nat;
  chunk_overlap : nat;
  min_chunk_size : nat;
  split_on_newline : bool;
  respect_sentences : bool
}.

Inductive ConfigError := ValueError (msg : string).

(** [ChunkConfig(...)] followed by [__post_init__]: the fields are Python
    ints; the checks run in source order and the first failing one raises. *)
Definition chunk_config_new (size overlap min : Z) (split_nl respect : bool)
  : ConfigError + ChunkConfig :=
  if (size <=? 0)%Z then inl (ValueError "Chunk size must be positive")
  else if (overlap <? 0)%Z then inl (ValueError "Chunk overlap must be non-negative")
  else if (overlap >=? size)%Z then inl (ValueError "Chunk overlap must be less than chunk size")
  else if (min <=? 0)%Z then inl (ValueError "Minimum chunk size must be positive")
  else if (min >? size)%Z then inl (ValueError "Minimum chunk size must not exceed chunk size")
  else inr {| chunk_size := Z.to_nat size; chunk_overlap := Z.to_nat overlap;
              min_chunk_size := Z.to_nat min; split_on_newline := split_nl;
              respect_sentences := respect |}.

(** [TextChunk]; the metadata type is a parameter: the chunkers attach a
    copy of the caller's mapping, the vector store attaches its own
    mapping object. *)
Record TextChunk (M : Type) := {
  text : pystr;
  metadata : M;
  start_char : Z;
  end_char : Z;
  chunk_index : nat
}.
Arguments text {M}. Arguments metadata {M}. Arguments start_char {M}.
Arguments end_char {M}. Arguments chunk_index {M}.

(** The chunkers' running state: the [chunks] list and the [chunk_index]
    counter. *)
Record Emitter (M : Type) := { chunks : list (TextChunk M); next_index : nat }.
Arguments chunks {M}. Arguments next_index {M}.

Definition emitter0 {M} : Emitter M := {| chunks := []; next_index := 0 |}.

(** [chunks.append(TextChunk(text=t, metadata=metadata.copy(),
    start_char=s, end_char=s + len(t), chunk_index=chunk_index));
    chunk_index += 1] *)
Definition emit {M} (md : M) (t : pystr) (s : Z) (st : Emitter M) : Emitter M :=
  {| chunks := chunks st ++ [{| text := t; metadata := md; start_char := s;
                                end_char := (s + Z.of_nat (length t))%Z;
                                chunk_index := next_index st |}];
     next_index := S (next_index st) |}.

(** ** SimpleChunker *)

Definition is_term (c : ascii) : bool :=
  let n := nat_of_ascii c in (n =? 46) || (n =? 33) || (n =? 63).

(** the closing class of the sentence regex: whitespace, double quote,
    single quote, right parenthesis, right bracket, right brace *)
Definition is_close (c : ascii) : bool :=
  let n := nat_of_ascii c in
  is_space c || (n =? 34) || (n =? 39) || (n =? 41) || (n =? 93) || (n =? 125).

Fixpoint close_run (s : pystr) : nat :=
  match s with
  | c :: r => if is_close c then S (close_run r) else 0
  | [] => 0
  end.

(** [m.end()] for every match of the sentence regex (a terminator among
    . ! ? then any run of the closing class) in [re.finditer] over
    [s], offset by [k].  The trailing class holds no terminator, so every
    terminator starts a match. *)
Fixpoint sentence_match_ends (s : pystr) (k : nat) : list nat :=
  match s with
  | [] => []
  | c :: r =>
      if is_term c then (S k + close_run r) :: sentence_match_ends r (S k)
      else sentence_match_ends r (S k)
  end.

Fixpoint newline_match_starts (s : pystr) (k : nat) : list nat :=
  match s with
  | [] => []
  | c :: r =>
      if ascii_eqb c nl then k :: newline_match_starts r (S k)
      else newline_match_starts r (S k)
  end.

(** [for pos in reversed(boundaries): if pos <= end_pos: return pos] *)
Definition last_le (bs : list nat) (end_pos : nat) : nat :=
  match find (fun p => p <=? end_pos) (rev bs) with
  | Some p => p
  | None => end_pos
  end.

(** [SimpleChunker._find_sentence_boundary] *)
Definition find_sentence_boundary (cfg : ChunkConfig) (t : pystr) (start_pos end_pos : nat)
  : nat :=
  let search_text := slice t start_pos end_pos in
  let boundaries :=
    filter (fun pos => start_pos + min_chunk_size cfg <? pos)
      (map (fun e => start_pos + e) (sentence_match_ends search_text 0)) in
  match boundaries with
  | [] => end_pos
  | _ => last_le boundaries end_pos
  end.

(** [SimpleChunker._find_newline_boundary] *)
Definition find_newline_boundary (cfg : ChunkConfig) (t : pystr) (start_pos end_pos : nat)
  : nat :=
  let search_text := slice t start_pos end_pos in
  let boundaries :=
    filter (fun pos => start_pos + min_chunk_size cfg <? pos)
      (map (fun e => start_pos + e) (newline_match_starts search_text 0)) in
  match find (fun pos => start_pos + min_chunk_size cfg <? pos) boundaries with
  | Some pos => pos
  | None => end_pos
  end.

(** The chunk end chosen for the window starting at [current_pos]
    (lines 86-99). *)
Definition simple_chunk_end (cfg : ChunkConfig) (t : pystr) (current_pos : nat) : nat :=
  let chunk_end := Nat.min (current_pos + chunk_size cfg) (length t) in
  let chunk_end :=
    if split_on_newline cfg && (chunk_end <? length t) then
      let newline_pos := find_newline_boundary cfg t current_pos chunk_end in
      if current_pos + min_chunk_size cfg <? newline_pos then newline_pos else chunk_end
    else chunk_end in
  if (chunk_end <? length t) && respect_sentences cfg then
    let sentence_end := find_sentence_boundary cfg t current_pos chunk_end in
    if current_pos + min_chunk_size cfg <? sentence_end then sentence_end else chunk_end
  else chunk_end.

(** [for line in lines[:-1]: line = line.strip(); if line: ...append...] *)
Fixpoint emit_lines {M} (md : M) (t : pystr) (current_pos : nat) (lines : list pystr)
  (st : Emitter M) : Emitter M :=
  match lines with
  | [] => st
  | l :: ls =>
      let line := strip l in
      let st := if is_nonempty line then emit md line (py_find t line current_pos) st else st in
      emit_lines md t current_pos ls st
  end.

(** Chunk creation for one window (lines 102-132). *)
Definition simple_emit_window {M} (cfg : ChunkConfig) (md : M) (t : pystr)
  (current_pos chunk_end : nat) (st : Emitter M) : Emitter M :=
  let ct := strip (slice t current_pos chunk_end) in
  if is_nonempty ct then
    let '(st, ct) :=
      if split_on_newline cfg && (chunk_end <? length t) then
        let lines := split_on nl ct in
        (emit_lines md t current_pos (removelast lines) st, strip (last lines []))
      else (st, ct) in
    if is_nonempty ct then emit md ct (py_find t ct current_pos) st else st
  else st.

(** Lines 135-137: [current_pos = chunk_end - chunk_overlap;
    if current_pos <= current_pos: current_pos = chunk_end].  The test
    compares the freshly assigned variable with itself. *)
Definition simple_next_pos (cfg : ChunkConfig) (chunk_end : nat) : nat :=
  let current_pos := (Z.of_nat chunk_end - Z.of_nat (chunk_overlap cfg))%Z in
  if (current_pos <=? current_pos)%Z then chunk_end else Z.to_nat current_pos.

(** The [while current_pos < len(text)] loop with a step budget; [None]
    means the budget ran out (the Python loop would still be running). *)
Fixpoint simple_loop {M} (fuel : nat) (cfg : ChunkConfig) (md : M) (t : pystr)
  (current_pos : nat) (st : Emitter M) : option (Emitter M) :=
  if current_pos <? length t then
    match fuel with
    | 0 => None
    | S f =>
        let chunk_end := simple_chunk_end cfg t current_pos in
        let st := simple_emit_window cfg md t current_pos chunk_end st in
        simple_loop f cfg md t (simple_next_pos cfg chunk_end) st
    end
  else Some st.

(** [SimpleChunker.chunk_text]; every iteration advances the cursor, so
    [len(text)] iterations suffice (see [simple_loop_terminates]). *)
Definition simple_chunk_text {M} (cfg : ChunkConfig) (t : pystr) (md : M)
  : option (list (TextChunk M)) :=
  match t with
  | [] => Some []
  | _ => option_map chunks (simple_loop (length t) cfg md t 0 emitter0)
  end.

(** ** RecursiveChunker *)

(** Position (inside [r]) of the last newline of the maximal whitespace
    prefix of [r]: where [\n\s*\n] ends after the leading newline, the
    greedy [\s*] backtracking to the last newline it covered. *)
Fixpoint ws_last_nl (r : pystr) (k : nat) (acc : option nat) : option nat :=
  match r with
  | c :: r' =>
      if is_space c then ws_last_nl r' (S k) (if ascii_eqb c nl then Some k else acc)
      else acc
  | [] => acc
  end.

(** [re.split(r'\n\s*\n', s)], scanning left to right; [cur] holds the
    current piece reversed.  Each step consumes a character, so
    [S (len s)] steps are enough. *)
Fixpoint major_split_aux (fuel : nat) (s cur : pystr) : list pystr :=
  match fuel with
  | 0 => [rev cur ++ s]
  | S f =>
      match s with
      | [] => [rev cur]
      | c :: r =>
          if ascii_eqb c nl then
            match ws_last_nl r 0 None with
            | Some j => rev cur :: major_split_aux f (skipn (S j) r) []
            | None => major_split_aux f r (c :: cur)
            end
          else major_split_aux f r (c :: cur)
      end
  end.

Definition major_split (s : pystr) : list pystr := major_split_aux (S (length s)) s [].

(** [re.split(r'(?<=[.!?])\s+', s)]: a separator is a maximal whitespace
    run right after a terminator.  [in_sep]: inside a separator;
    [prev_term]: the previous character is a terminator; [cur]: current
    piece reversed; [acc]: finished pieces reversed. *)
Fixpoint sentence_split_aux (in_sep prev_term : bool) (s cur : pystr) (acc : list pystr)
  : list pystr :=
  match s with
  | [] => rev (rev cur :: acc)
  | c :: r =>
      if in_sep then
        if is_space c then sentence_split_aux true false r cur acc
        else sentence_split_aux false (is_term c) r [c] acc
      else if prev_term && is_space c then sentence_split_aux true false r [] (rev cur :: acc)
      else sentence_split_aux false (is_term c) r (c :: cur) acc
  end.

Definition sentence_split (s : pystr) : list pystr := sentence_split_aux false false s [] [].

(** [sentence[i:i + chunk_size] for i in range(0, len(sentence), chunk_size)] *)
Fixpoint fixed_pieces (fuel size : nat) (s : pystr) : list pystr :=
  match fuel with
  | 0 => []
  | S f =>
      match s with
      | [] => []
      | _ => firstn size s :: fixed_pieces f size (skipn size s)
      end
  end.

(** [range(0, n, 0)] raises [ValueError]: [None]. *)
Definition range_pieces (size : nat) (s : pystr) : option (list pystr) :=
  if size =? 0 then None else Some (fixed_pieces (length s) size s).

Definition is_nonempty_list {A} (l : list A) : bool :=
  match l with [] => false | _ => true end.

Fixpoint fold_opt {A B} (f : B -> A -> option B) (l : list A) (b : B) : option B :=
  match l with
  | [] => Some b
  | x :: r => match f b x with Some b' => fold_opt f r b' | None => None end
  end.

(** Loop state of the subsection loop: emitted chunks, [current_chunk],
    [current_length]. *)
Record RecState (M : Type) := { em : Emitter M; current_chunk : list pystr; current_length : nat }.
Arguments em {M}. Arguments current_chunk {M}. Arguments current_length {M}.

Section Recursive.
Context {M : Type} (cfg : ChunkConfig) (md : M) (t : pystr).

(** [chunk_text = '\n'.join(current_chunk); start_char = text.find(chunk_text); append] *)
Definition flush (cur : list pystr) (st : Emitter M) : Emitter M :=
  let ct := join [nl] cur in emit md ct (py_find t ct 0) st.

Definition emit_found (st : Emitter M) (piece : pystr) : Emitter M :=
  emit md piece (py_find t piece 0) st.

(** Body of [for sentence in sentences] (lines 279-308). *)
Definition sentence_step (rs : RecState M) (sentence : pystr) : option (RecState M) :=
  if chunk_size cfg <? length sentence then
    match range_pieces (chunk_size cfg) sentence with
    | None => None
    | Some pieces =>
        Some {| em := fold_left emit_found pieces (em rs);
                current_chunk := current_chunk rs; current_length := current_length rs |}
    end
  else
    let cur := current_chunk rs ++ [sentence] in
    let len := current_length rs + length sentence in
    if chunk_size cfg <? len then
      Some {| em := flush cur (em rs); current_chunk := []; current_length := 0 |}
    else Some {| em := em rs; current_chunk := cur; current_length := len |}.

(** Body of [for subsection in subsections] (lines 255-311). *)
Definition subsection_step (rs : RecState M) (subsection0 : pystr) : option (RecState M) :=
  let subsection := strip subsection0 in
  if negb (is_nonempty subsection) then Some rs
  else
    let rs :=
      if (chunk_size cfg <? current_length rs + length subsection)
         && is_nonempty_list (current_chunk rs) then
        {| em := flush (current_chunk rs) (em rs); current_chunk := []; current_length := 0 |}
      else rs in
    if chunk_size cfg <? length subsection then
      fold_opt sentence_step (sentence_split subsection) rs
    else Some {| em := em rs; current_chunk := current_chunk rs ++ [subsection];
                 current_length := current_length rs + length subsection |}.

(** Body of [for section in major_sections] (lines 233-324). *)
Definition section_step (st : Emitter M) (section0 : pystr) : option (Emitter M) :=
  let section := strip section0 in
  if negb (is_nonempty section) then Some st
  else if length section <=? chunk_size cfg then
    Some (emit md section (py_find t section 0) st)
  else
    match fold_opt subsection_step (split_on nl section)
            {| em := st; current_chunk := []; current_length := 0 |} with
    | None => None
    | Some rs =>
        Some (if is_nonempty_list (current_chunk rs) then flush (current_chunk rs) (em rs)
              else em rs)
    end.

End Recursive.

(** [RecursiveChunker.chunk_text]; [None] is the [ValueError] of
    [range(..., 0)], possible only when [chunk_size = 0]. *)
Definition recursive_chunk_text {M} (cfg : ChunkConfig) (t : pystr) (md : M)
  : option (list (TextChunk M)) :=
  match t with
  | [] => Some []
  | _ => option_map chunks (fold_opt (section_step cfg md t) (major_split t) emitter0)
  end.

(** ** NumPy vectors as lists of reals *)

Section Vectors.
Local Open Scope R_scope.

Definition Rleb (a b : R) : bool := if Rle_dec a b then true else false.
Definition Rltb (a b : R) : bool := if Rlt_dec a b then true else false.

Fixpoint sum_sq (v : list R) : R :=
  match v with [] => 0 | x :: r => x * x + sum_sq r end.

(** [np.linalg.norm(v)] *)
Definition l2norm (v : list R) : R := sqrt (sum_sq v).

Fixpoint dot_aux (u v : list R) : R :=
  match u, v with
  | x :: u', y :: v' => x * y + dot_aux u' v'
  | _, _ => 0
  end.

(** [np.dot] of two 1-D arrays: a shape mismatch raises [ValueError]. *)
Definition np_dot (u v : list R) : option R :=
  if (length u =? length v)%nat then Some (dot_aux u v) else None.

(** [v / s] elementwise.  NumPy yields nan for [s = 0]; in the reals
    [x / 0 = 0]. *)
Definition vdiv (v : list R) (s : R) : list R := map (fun x => x / s) v.

Fixpoint vsub (u v : list R) : list R :=
  match u, v with
  | x :: u', y :: v' => (x - y) :: vsub u' v'
  | _, _ => []
  end.

(** [u - v] on 1-D arrays, with NumPy broadcasting: equal shapes subtract
    elementwise, an operand of length 1 is stretched to the other's
    length, any other pair of shapes raises [ValueError]. *)
Definition np_sub (u v : list R) : option (list R) :=
  if (length u =? length v)%nat then Some (vsub u v)
  else match u, v with
       | [x], _ => Some (map (fun y => x - y) v)
       | _, [y] => Some (map (fun x => x - y) u)
       | _, _ => None
       end.

End Vectors.

(** ** Stable sorting ([list.sort] / [sorted] with a key) *)

Section Sort.
Context {A : Type} (key : A -> R).

(** [x] comes from earlier in the input than every element of [l]: it
    stays in front of every element it does not have to pass. *)
Fixpoint insert_asc (x : A) (l : list A) : list A :=
  match l with
  | [] => [x]
  | y :: r => if Rltb (key y) (key x) then y :: insert_asc x r else x :: l
  end.

(** [sorted(l, key=key)] *)
Definition sort_asc (l : list A) : list A := fold_right insert_asc [] l.

Fixpoint insert_desc (x : A) (l : list A) : list A :=
  match l with
  | [] => [x]
  | y :: r => if Rltb (key x) (key y) then y :: insert_desc x r else x :: l
  end.

(** [sorted(l, key=key, reverse=True)]: still stable. *)
Definition sort_desc (l : list A) : list A := fold_right insert_desc [] l.

End Sort.

(** [l[:k]] for a Python int [k] *)
Definition py_take {A} (k : Z) (l : list A) : list A :=
  if (0 <=? k)%Z then firstn (Z.to_nat k) l
  else firstn (Z.to_nat (Z.of_nat (length l) + k)) l.

(** ** Metadata *)

(** Contents of a [Dict[str, Any]] (values as strings). *)
Definition Meta := list (string * string).

Fixpoint dict_get {V} (d : list (string * V)) (k : string) : option V :=
  match d with
  | [] => None
  | (k', v) :: r => if String.eqb k k' then Some v else dict_get r k
  end.

(** [d[k] = v]: an existing key keeps its position. *)
Fixpoint dict_set {V} (d : list (string * V)) (k : string) (v : V) : list (string * V) :=
  match d with
  | [] => [(k, v)]
  | (k', v') :: r => if String.eqb k k' then (k, v) :: r else (k', v') :: dict_set r k v
  end.

(** [all(metadata.get(k) == v for k, v in filters.items())] *)
Definition matches_filter (md filters : Meta) : bool :=
  forallb (fun '(k, v) => match dict_get md k with Some v' => String.eqb v' v | None => false end)
    filters.

(** ** MemoryStore (memory_store.py) *)

Record MemoryStore := {
  distance_metric : string;
  ms_texts : list (string * pystr);
  ms_embeddings : list (string * list R);
  ms_metadata : list (string * Meta)
}.

Definition ms_empty (metric : string) : MemoryStore :=
  {| distance_metric := metric; ms_texts := []; ms_embeddings := []; ms_metadata := [] |}.

Definition ms_store (st : MemoryStore) (id : string) (t : pystr) (e : list R) (md : Meta)
  : MemoryStore :=
  {| distance_metric := distance_metric st;
     ms_texts := dict_set (ms_texts st) id t;
     ms_embeddings := dict_set (ms_embeddings st) id e;
     ms_metadata := dict_set (ms_metadata st) id md |}.

(** Normalisation at insertion (lines 61-64). *)
Definition ms_normalize (e : list R) : list R :=
  let norm := l2norm e in
  if Rlt_dec 0 norm then vdiv e norm else e.

(** The loop over [enumerate(zip(texts, embeddings))] (lines 59-71);
    [false] is the [IndexError] of [ids[i]], raised after the earlier
    records were stored. *)
Fixpoint ms_add_loop (st : MemoryStore) (i : nat) (pairs : list (pystr * list R))
  (ids : list string) (metadata : option (list Meta)) : bool * MemoryStore :=
  match pairs with
  | [] => (true, st)
  | (t, e) :: ps =>
      match nth_error ids i with
      | None => (false, st)
      | Some id =>
          let md := match metadata with
                    | Some ((_ :: _) as m) => if i <? length m then nth i m [] else []
                    | _ => []
                    end in
          ms_add_loop (ms_store st id t (ms_normalize e) md) (S i) ps ids metadata
      end
  end.

(** [MemoryStore.add_texts]; [uuid4] gives the identifiers [uuid4()]
    returns during the call.  The result is [Some ids], or [None] when the
    call raises; the store is returned in both cases. *)
Definition ms_add_texts (uuid4 : nat -> string) (st : MemoryStore) (texts : list pystr)
  (embeddings : list (list R)) (metadata : option (list Meta)) (ids : option (list string))
  : option (list string) * MemoryStore :=
  let ids := match ids with Some l => l | None => map uuid4 (seq 0 (length texts)) end in
  let '(ok, st') := ms_add_loop st 0 (combine texts embeddings) ids metadata in
  (if ok then Some ids else None, st').

Record VectorSearchResult := { vs_id : string; vs_text : pystr; vs_metadata : Meta;
                               vs_score : R; vs_embedding : list R }.

(** The score of one record (lines 109-114). *)
Definition ms_score (metric : string) (q e : list R) : option R :=
  if String.eqb metric "cosine" then option_map (fun d => 1 - d)%R (np_dot q e)
  else if String.eqb metric "euclidean" then
    option_map l2norm (np_sub q e)
  else option_map Ropp (np_dot q e).

(** The loop of lines 101-125: the filter reads [self._metadata.get(id, {})],
    the result [self._texts[id]] and [self._metadata[id]], which raise
    [KeyError] when missing. *)
Fixpoint ms_collect (st : MemoryStore) (q : list R) (filter_metadata : Meta)
  (es : list (string * list R)) : option (list VectorSearchResult) :=
  match es with
  | [] => Some []
  | (id, e) :: r =>
      let md0 := match dict_get (ms_metadata st) id with Some m => m | None => [] end in
      if is_nonempty_list filter_metadata && negb (matches_filter md0 filter_metadata) then
        ms_collect st q filter_metadata r
      else
        match ms_score (distance_metric st) q e, dict_get (ms_texts st) id,
              dict_get (ms_metadata st) id with
        | Some score, Some t, Some md =>
            option_map (cons {| vs_id := id; vs_text := t; vs_metadata := md;
                                vs_score := score; vs_embedding := e |})
              (ms_collect st q filter_metadata r)
        | _, _, _ => None
        end
  end.

(** [MemoryStore.search]: normalise the query, score every record in
    insertion order, [results.sort(key=score)], return [results[:k]]. *)
Definition ms_search (st : MemoryStore) (query_embedding : list R) (k : Z)
  (filter_metadata : Meta) : option (list VectorSearchResult) :=
  let query_array := vdiv query_embedding (l2norm query_embedding) in
  option_map (fun results => py_take k (sort_asc vs_score results))
    (ms_collect st query_array filter_metadata (ms_embeddings st)).

(** ** MemoryVectorStore (memory.py) *)

Section MemoryVectorStore.
(** Metadata mappings are Python objects: [Obj] is the type of dict
    objects (equal values = the same object), [items] their contents. *)
Context {Obj : Type} (items : Obj -> Meta).

Record MVStore := {
  mv_texts : list pystr;
  mv_embeddings : list (list R);
  mv_metadatas : list Obj
}.

Definition mv_empty : MVStore := {| mv_texts := []; mv_embeddings := []; mv_metadatas := [] |}.

(** [MemoryVectorStore.add_text]; [provider_embedding] is
    [get_embeddings_sync([text])[0]], [empty] the object [{}] built by
    [metadata or {}]. *)
Definition mv_add_text (st : MVStore) (t : pystr) (metadata : option Obj)
  (embedding : option (list R)) (provider_embedding : list R) (empty : Obj) : MVStore :=
  let embedding := match embedding with Some e => e | None => provider_embedding end in
  let md := match metadata with
            | Some m => if is_nonempty_list (items m) then m else empty
            | None => empty
            end in
  {| mv_texts := mv_texts st ++ [t];
     mv_embeddings := mv_embeddings st ++ [embedding];
     mv_metadatas := mv_metadatas st ++ [md] |}.

(** [MemoryVectorStore.add_texts]; [provider_embeddings] is
    [get_embeddings_sync(texts)], [empties] the objects of
    [[{} for _ in texts]]. *)
Definition mv_add_texts (st : MVStore) (texts : list pystr) (metadatas : option (list Obj))
  (embeddings : option (list (list R))) (provider_embeddings : list (list R))
  (empties : list Obj) : MVStore :=
  let embeddings := match embeddings with Some e => e | None => provider_embeddings end in
  let metadatas := match metadatas with Some m => m | None => firstn (length texts) empties end in
  {| mv_texts := mv_texts st ++ texts;
     mv_embeddings := mv_embeddings st ++ embeddings;
     mv_metadatas := mv_metadatas st ++ metadatas |}.

Record SearchResult := { sr_chunk : TextChunk Obj; sr_score : R }.

(** Candidates [(i, similarity)] kept by the filter and [min_score]
    (lines 292-301), in index order. *)
Fixpoint mv_candidates (st : MVStore) (min_score : R) (filters : Meta)
  (i : nat) (sims : list R) : option (list (nat * R)) :=
  match sims with
  | [] => Some []
  | s :: r =>
      let rest := mv_candidates st min_score filters (S i) r in
      if is_nonempty_list filters then
        match nth_error (mv_metadatas st) i with
        | None => None
        | Some m =>
            if negb (matches_filter (items m) filters) then rest
            else if Rleb min_score s then option_map (cons (i, s)) rest else rest
        end
      else if Rleb min_score s then option_map (cons (i, s)) rest else rest
  end.

(** Lines 310-319: one [SearchResult] per kept pair, [chunk_index] being
    the position in the ranked list. *)
Fixpoint mv_results (st : MVStore) (pos : nat) (ranked : list (nat * R))
  : option (list SearchResult) :=
  match ranked with
  | [] => Some []
  | (idx, score) :: r =>
      match nth_error (mv_texts st) idx, nth_error (mv_metadatas st) idx with
      | Some t, Some m =>
          option_map (cons {| sr_chunk := {| text := t; metadata := m; start_char := 0;
                                             end_char := Z.of_nat (length t);
                                             chunk_index := pos |};
                              sr_score := score |})
            (mv_results st (S pos) r)
      | _, _ => None
      end
  end.

(** [MemoryVectorStore.similarity_search].  [np.array(self.embeddings)]
    followed by [np.dot(array, query)] needs every row to have the query's
    length; otherwise NumPy raises ([None]). *)
Definition similarity_search (st : MVStore) (query_embedding : list R) (k : Z)
  (min_score : R) (filters : Meta) : option (list SearchResult) :=
  match mv_embeddings st with
  | [] => Some []
  | es =>
      if forallb (fun e => length e =? length query_embedding) es then
        let similarities := map (fun e => dot_aux e query_embedding) es in
        match mv_candidates st min_score filters 0 similarities with
        | None => None
        | Some results => mv_results st 0 (py_take k (sort_desc snd results))
        end
      else None
  end.

End MemoryVectorStore.
Arguments SearchResult : clear implicits.
Arguments MVStore : clear implicits.

(** ** Retrieval (rag/retrieval.py) *)

Record RetrievalConfig := {
  top_k : Z;
  min_similarity : R;
  rerank_results : bool;
  filter_duplicates : bool;
  duplicate_threshold : R
}.

(** [RetrievalConfig(...)] followed by [__post_init__]. *)
Definition retrieval_config_new (k : Z) (min_sim : R) (rerank filter_dup : bool) (thr : R)
  : ConfigError + RetrievalConfig :=
  if (k <=? 0)%Z then inl (ValueError "top_k must be positive")
  else if negb (Rleb 0 min_sim && Rleb min_sim 1) then
    inl (ValueError "min_similarity must be between 0 and 1")
  else if negb (Rleb 0 thr && Rleb thr 1) then
    inl (ValueError "duplicate_threshold must be between 0 and 1")
  else inr {| top_k := k; min_similarity := min_sim; rerank_results := rerank;
              filter_duplicates := filter_dup; duplicate_threshold := thr |}.

Section Retrieval.
Context {Obj : Type} (items : Obj -> Meta).
(** [embed t]: the embedding the provider returns for [t]; it serves
    [get_embeddings([query])[0]] and [vector_store.get_embedding(text)]. *)
Context (embed : pystr -> list R).

Record RetrievedChunk := { rc_chunk : TextChunk Obj; similarity : R; rank : nat }.

Definition set_rank (i : nat) (c : RetrievedChunk) : RetrievedChunk :=
  {| rc_chunk := rc_chunk c; similarity := similarity c; rank := i |}.

(** [for i, chunk in enumerate(chunks): chunk.rank = i + 1] *)
Fixpoint renumber (i : nat) (l : list RetrievedChunk) : list RetrievedChunk :=
  match l with [] => [] | c :: r => set_rank (S i) c :: renumber (S i) r end.

(** [embedding / np.linalg.norm(embedding)] *)
Definition normalize (e : list R) : list R := vdiv e (l2norm e).

(** [for seen_embedding in seen_embeddings: ... if similarity > threshold:
    is_duplicate = True; break] *)
Fixpoint dup_check (threshold : R) (e : list R) (seen : list (list R)) : option bool :=
  match seen with
  | [] => Some false
  | s :: r =>
      match np_dot e s with
      | None => None
      | Some sim => if Rltb threshold sim then Some true else dup_check threshold e r
      end
  end.

(** The loop of [_filter_duplicates] over [chunks], threading
    [(filtered, seen_embeddings)]. *)
Fixpoint dedup_loop (threshold : R) (cs : list RetrievedChunk)
  (acc : list RetrievedChunk * list (list R)) : option (list RetrievedChunk * list (list R)) :=
  match cs with
  | [] => Some acc
  | c :: r =>
      let e := normalize (embed (text (rc_chunk c))) in
      match dup_check threshold e (snd acc) with
      | None => None
      | Some true => dedup_loop threshold r acc
      | Some false => dedup_loop threshold r (fst acc ++ [c], snd acc ++ [e])
      end
  end.

(** [RetrievalStrategy._filter_duplicates] *)
Definition filter_duplicates_fn (threshold : R) (cs : list RetrievedChunk)
  : option (list RetrievedChunk) :=
  match cs with
  | [] => Some cs
  | _ => option_map fst (dedup_loop threshold cs ([], []))
  end.

(** [SemanticRetrieval._rerank_results] *)
Definition rerank (cs : list RetrievedChunk) : list RetrievedChunk :=
  renumber 0 (sort_desc similarity cs).

(** [SemanticRetrieval.retrieve] after the index search: [results] is
    what [similarity_search] returned. *)
Definition retrieve_from_results (cfg : RetrievalConfig) (results : list (SearchResult Obj))
  : option (list RetrievedChunk) :=
  let cs := renumber 0 (map (fun r => {| rc_chunk := sr_chunk r; similarity := sr_score r;
                                          rank := 0 |}) results) in
  let cs := if filter_duplicates cfg
            then option_map (renumber 0) (filter_duplicates_fn (duplicate_threshold cfg) cs)
            else Some cs in
  match cs with
  | None => None
  | Some cs =>
      let cs := if rerank_results cfg then renumber 0 (rerank cs) else cs in
      Some (py_take (top_k cfg) cs)
  end.

(** [SemanticRetrieval.retrieve] over a [MemoryVectorStore]. *)
Definition retrieve (cfg : RetrievalConfig) (st : MVStore Obj) (query : pystr) (filters : Meta)
  : option (list RetrievedChunk) :=
  let query_embedding := embed query in
  let k := if filter_duplicates cfg then (top_k cfg * 2)%Z else top_k cfg in
  match similarity_search items st query_embedding k (min_similarity cfg) filters with
  | None => None
  | Some results => retrieve_from_results cfg results
  end.

End Retrieval.
Arguments RetrievedChunk : clear implicits.

(** Configurations used in the statements below. *)
Definition cfg_of (r : ConfigError + ChunkConfig) : ChunkConfig :=
  match r with
  | inr c => c
  | inl _ => {| chunk_size := 0; chunk_overlap := 0; min_chunk_size := 0;
                split_on_newline := false; respect_sentences := false |}
  end.

(** A sequence of [MemoryStore.add_texts] calls, each with the
    identifiers [uuid4()] returns during that call. *)
Record AddCall := {
  call_texts : list pystr;
  call_embeddings : list (list R);
  call_metadata : option (list Meta);
  call_ids : option (list string);
  call_uuid4 : nat -> string
}.

Definition ms_run (st : MemoryStore) (calls : list AddCall) : MemoryStore :=
  fold_left (fun st c => snd (ms_add_texts (call_uuid4 c) st (call_texts c) (call_embeddings c)
                                (call_metadata c) (call_ids c))) calls st.

(** A vector of unit length, or the zero vector. *)
Definition unit_or_zero (e : list R) : Prop := sum_sq e = 1%R \/ Forall (fun x => x = 0%R) e.

(** ** Spec-side duplicate suppression *)

(** Cosine similarity of two vectors, as the spec names it. *)
Definition cosine (u v : list R) : R := (dot_aux u v / (l2norm u * l2norm v))%R.

(** The greedy rule in the spec's words: keep a candidate unless its
    cosine similarity to some candidate accepted before it exceeds the
    threshold; [acc] holds the accepted candidates in order. *)
Fixpoint greedy_accept {Obj} (embed : pystr -> list R) (thr : R)
  (acc cs : list (RetrievedChunk Obj)) : list (RetrievedChunk Obj) :=
  match cs with
  | [] => acc
  | c :: r =>
      if existsb (fun a => Rltb thr (cosine (embed (text (rc_chunk c)))
                                            (embed (text (rc_chunk a))))) acc
      then greedy_accept embed thr acc r
      else greedy_accept embed thr (acc ++ [c]) r
  end.

(** ** Further MemoryStore operations (memory_store.py) *)

(** [d.pop(k, None)]: the entry for [k] is removed when there is one.
    The keys of a dict are distinct, so this is every entry with key [k]. *)
Definition dict_pop {V} (d : list (string * V)) (k : string) : list (string * V) :=
  filter (fun kv => negb (String.eqb k (fst kv))) d.

(** [VectorStoreConfig] (base_store.py); the two directories are not
    read by [MemoryStore]. *)
Record VectorStoreConfig := {
  collection_name : string;
  embedding_dimension : Z;
  vs_distance_metric : string
}.

(** [MemoryStore(config)]: [BaseVectorStore.__init__] runs
    [_validate_config] (lines 23-33) after the fields are set. *)
Definition memory_store_new (cfg : VectorStoreConfig) : ConfigError + MemoryStore :=
  if String.eqb (collection_name cfg) "" then inl (ValueError "Collection name is required")
  else if (embedding_dimension cfg <=? 0)%Z then
    inl (ValueError "Embedding dimension must be positive")
  else inr (ms_empty (vs_distance_metric cfg)).

(** The body of the loop of [MemoryStore.delete] (lines 143-145). *)
Definition ms_pop (st : MemoryStore) (id : string) : MemoryStore :=
  {| distance_metric := distance_metric st;
     ms_texts := dict_pop (ms_texts st) id;
     ms_embeddings := dict_pop (ms_embeddings st) id;
     ms_metadata := dict_pop (ms_metadata st) id |}.

(** [MemoryStore.delete] (lines 132-148): every id is popped from the
    three dicts; the call returns [True]. *)
Definition ms_delete (st : MemoryStore) (ids : list string) : bool * MemoryStore :=
  (true, fold_left ms_pop ids st).

(** [MemoryStore.get_by_id] (lines 150-173): [Some None] is [return None];
    [None] is the [KeyError] of [self._embeddings[id]]. *)
Definition ms_get_by_id (st : MemoryStore) (id : string) : option (option VectorSearchResult) :=
  match dict_get (ms_texts st) id with
  | None => Some None
  | Some t =>
      match dict_get (ms_embeddings st) id with
      | None => None
      | Some e =>
          Some (Some {| vs_id := id; vs_text := t;
                        vs_metadata := match dict_get (ms_metadata st) id with
                                       | Some m => m
                                       | None => []
                                       end;
                        vs_score := 0; vs_embedding := e |})
      end
  end.

(** [MemoryStore.clear] (lines 175-187). *)
Definition ms_clear (st : MemoryStore) : bool * MemoryStore :=
  (true, ms_empty (distance_metric st)).

(** The dict [MemoryStore.get_stats] returns (lines 189-200). *)
Record StoreStats := {
  total_texts : nat;
  total_embeddings : nat;
  stats_collection_name : string;
  stats_embedding_dimension : Z
}.

Definition ms_get_stats (cfg : VectorStoreConfig) (st : MemoryStore) : StoreStats :=
  {| total_texts := length (ms_texts st);
     total_embeddings := length (ms_embeddings st);
     stats_collection_name := collection_name cfg;
     stats_embedding_dimension := embedding_dimension cfg |}.

(** The mutating calls a caller makes on a [MemoryStore]; a call that
    raises leaves the store as it was when it raised. *)
Inductive StoreCall :=
| CallAdd (c : AddCall)
| CallDelete (ids : list string)
| CallClear.

Definition ms_call (st : MemoryStore) (c : StoreCall) : MemoryStore :=
  match c with
  | CallAdd a => snd (ms_add_texts (call_uuid4 a) st (call_texts a) (call_embeddings a)
                        (call_metadata a) (call_ids a))
  | CallDelete ids => snd (ms_delete st ids)
  | CallClear => snd (ms_clear st)
  end.

Definition ms_calls (st : MemoryStore) (cs : list StoreCall) : MemoryStore :=
  fold_left ms_call cs st.

(** [MemoryVectorStore.clear] (memory.py, lines 134-138). *)
Definition mv_clear {Obj} (st : MVStore Obj) : MVStore Obj :=
  {| mv_texts := []; mv_embeddings := []; mv_metadatas := [] |}.

(** The [RetrievedChunk] that [SemanticRetrieval.retrieve] builds from a
    search result before the ranks are set. *)
Definition mk_chunk {Obj} (r : SearchResult Obj) : RetrievedChunk Obj :=
  {| rc_chunk := sr_chunk r; similarity := sr_score r; rank := 0 |}.

(** ** Chunker lemmas *)

(** The emitted chunks carry the indices [0 .. next_index - 1] in order. *)
Definition indices_ok {M} (st : Emitter M) : Prop :=
  map chunk_index (chunks st) = seq 0 (next_index st).

Definition rs_ok {M} (rs : RecState M) : Prop := indices_ok (em rs).

(** Orders on a list by a real key. *)
Definition le_key {A} (key : A -> R) (a b : A) : Prop := (key a <= key b)%R.
Definition ge_key {A} (key : A -> R) (a b : A) : Prop := (key b <= key a)%R.

Create HintDb chunkdb.

Lemma indices_ok_emitter0 {M} : indices_ok (@emitter0 M).
Proof. reflexivity. Qed.

Lemma indices_ok_emit {M} (md : M) t s st :
  indices_ok st -> indices_ok (emit md t s st).
Proof.
  unfold indices_ok, emit; cbn [chunks next_index]; intros H.
  rewrite map_app, H, seq_S; reflexivity.
Qed.

#[local] Hint Resolve indices_ok_emitter0 indices_ok_emit : chunkdb.

Lemma indices_ok_length {M} (st : Emitter M) :
  indices_ok st -> next_index st = length (chunks st).
Proof.
  unfold indices_ok; intros H.
  rewrite <- (length_map chunk_index (chunks st)), H, length_seq; reflexivity.
Qed.

Lemma fold_opt_inv {A B} (P : B -> Prop) (f : B -> A -> option B) :
  (forall b x b', P b -> f b x = Some b' -> P b') ->
  forall l b b', P b -> fold_opt f l b = Some b' -> P b'.
Proof.
  intros Hf l; induction l as [|x l IH]; simpl; intros b b' Hb Hfold.
  - congruence.
  - destruct (f b x) as [b1|] eqn:E; [|discriminate].
    exact (IH b1 b' (Hf _ _ _ Hb E) Hfold).
Qed.

Lemma fold_opt_some {A B} (P : B -> Prop) (f : B -> A -> option B) :
  (forall b x, P b -> exists b', f b x = Some b' /\ P b') ->
  forall l b, P b -> exists b', fold_opt f l b = Some b' /\ P b'.
Proof.
  intros Hf l; induction l as [|x l IH]; simpl; intros b Hb.
  - eauto.
  - destruct (Hf b x Hb) as [b1 [E H1]]; rewrite E; eauto.
Qed.

Lemma indices_ok_emit_lines {M} (md : M) t pos lines st :
  indices_ok st -> indices_ok (emit_lines md t pos lines st).
Proof.
  revert st; induction lines as [|l ls IH]; simpl; intros st H; auto.
  apply IH; destruct (is_nonempty (strip l)); auto with chunkdb.
Qed.

Lemma indices_ok_simple_window {M} cfg (md : M) t pos e st :
  indices_ok st -> indices_ok (simple_emit_window cfg md t pos e st).
Proof.
  unfold simple_emit_window; intros H.
  destruct (is_nonempty _); [|exact H].
  destruct (split_on_newline cfg && _); simpl;
    [pose proof (indices_ok_emit_lines md t pos (removelast (split_on nl (strip (slice t pos e)))) st H)|];
    match goal with |- context [if ?b then _ else _] => destruct b end;
    auto with chunkdb.
Qed.

Lemma indices_ok_simple_loop {M} fuel cfg (md : M) t pos st st' :
  indices_ok st -> simple_loop fuel cfg md t pos st = Some st' -> indices_ok st'.
Proof.
  revert pos st; induction fuel as [|f IH]; simpl; intros pos st H E;
    destruct (pos <? length t); try congruence.
  eapply IH; [apply indices_ok_simple_window, H | exact E].
Qed.

Lemma indices_ok_fold_emit_found {M} (md : M) t pieces st :
  indices_ok st -> indices_ok (fold_left (emit_found md t) pieces st).
Proof.
  revert st; induction pieces as [|p ps IH]; simpl; intros st H; auto.
  apply IH; unfold emit_found; auto with chunkdb.
Qed.

Ltac ltb_cases :=
  repeat match goal with
  | |- context [?a <? ?b] =>
      let E := fresh "E" in
      destruct (a <? b) eqn:E; [apply Nat.ltb_lt in E | apply Nat.ltb_ge in E]
  end.

(** Every window ends strictly after its start. *)
Lemma simple_chunk_end_advances cfg t pos :
  0 < chunk_size cfg -> pos < length t -> pos < simple_chunk_end cfg t pos.
Proof.
  intros Hs Hp; unfold simple_chunk_end; cbv zeta.
  destruct (split_on_newline cfg); destruct (respect_sentences cfg); simpl;
    ltb_cases; simpl; ltb_cases; lia.
Qed.

Lemma simple_next_pos_eq cfg e : simple_next_pos cfg e = e.
Proof. unfold simple_next_pos; rewrite Z.leb_refl; reflexivity. Qed.

Lemma simple_loop_some {M} cfg (md : M) t : 0 < chunk_size cfg ->
  forall fuel pos st, length t - pos <= fuel -> indices_ok st ->
  exists st', simple_loop fuel cfg md t pos st = Some st' /\ indices_ok st'.
Proof.
  intros Hs fuel; induction fuel as [|f IH]; simpl; intros pos st Hf Hst;
    destruct (pos <? length t) eqn:E; try (apply Nat.ltb_lt in E); eauto; try lia.
  rewrite simple_next_pos_eq.
  apply IH; [pose proof (simple_chunk_end_advances cfg t pos Hs E); lia|].
  apply indices_ok_simple_window, Hst.
Qed.

Lemma simple_chunk_text_some {M} cfg t (md : M) : 0 < chunk_size cfg ->
  exists cs, simple_chunk_text cfg t md = Some cs /\ map chunk_index cs = seq 0 (length cs).
Proof.
  intros Hs; unfold simple_chunk_text; destruct t as [|c r].
  - exists []; auto.
  - destruct (simple_loop_some cfg md (c :: r) Hs (length (c :: r)) 0 emitter0)
      as [st [E H]]; [lia | apply indices_ok_emitter0 |].
    rewrite E; exists (chunks st); split; [reflexivity|].
    rewrite H, <- (indices_ok_length st H); reflexivity.
Qed.

Section RecursiveLemmas.
Context {M : Type} (cfg : ChunkConfig) (md : M) (t : pystr).
Hypothesis Hsize : 0 < chunk_size cfg.

Lemma sentence_step_some rs s : rs_ok rs ->
  exists rs', sentence_step cfg md t rs s = Some rs' /\ rs_ok rs'.
Proof.
  unfold sentence_step, rs_ok, range_pieces; intros H.
  destruct (chunk_size cfg =? 0) eqn:Z0; [apply Nat.eqb_eq in Z0; lia|].
  destruct (chunk_size cfg <? length s).
  - eexists; split; [reflexivity|]; simpl; apply indices_ok_fold_emit_found, H.
  - destruct (chunk_size cfg <? _); eexists; split; try reflexivity; simpl;
      unfold flush; auto with chunkdb.
Qed.

Lemma subsection_step_some rs s : rs_ok rs ->
  exists rs', subsection_step cfg md t rs s = Some rs' /\ rs_ok rs'.
Proof.
  unfold subsection_step; intros H.
  destruct (negb (is_nonempty (strip s))); [eauto|].
  cbv zeta.
  destruct (_ && _);
    match goal with |- exists _, (if _ then fold_opt _ _ ?r else _) = _ /\ _ =>
      assert (H1 : rs_ok r) by (unfold rs_ok, flush; simpl; auto with chunkdb) end;
    (destruct (chunk_size cfg <? _);
     [ apply (fold_opt_some rs_ok); [intros; apply sentence_step_some; assumption | exact H1]
     | eexists; split; [reflexivity|]; exact H1 ]).
Qed.

Lemma section_step_some st s : indices_ok st ->
  exists st', section_step cfg md t st s = Some st' /\ indices_ok st'.
Proof.
  unfold section_step; intros H.
  destruct (negb (is_nonempty (strip s))); [eauto|].
  destruct (length (strip s) <=? chunk_size cfg); [eexists; split; [reflexivity|]; auto with chunkdb|].
  edestruct (fold_opt_some rs_ok (subsection_step cfg md t)) as [rs [E Hrs]];
    [intros; apply subsection_step_some; assumption
    | exact (H : rs_ok {| em := st; current_chunk := []; current_length := 0 |}) |].
  rewrite E; eexists; split; [reflexivity|].
  destruct (is_nonempty_list _); [unfold flush; auto with chunkdb | exact Hrs].
Qed.

End RecursiveLemmas.

Lemma recursive_chunk_text_some {M} cfg t (md : M) : 0 < chunk_size cfg ->
  exists cs, recursive_chunk_text cfg t md = Some cs /\ map chunk_index cs = seq 0 (length cs).
Proof.
  intros Hs; unfold recursive_chunk_text; destruct t as [|c r].
  - exists []; auto.
  - edestruct (fold_opt_some indices_ok (section_step cfg md (c :: r))) as [st [E H]];
      [intros; apply section_step_some; assumption | apply indices_ok_emitter0 |].
    rewrite E; exists (chunks st); split; [reflexivity|].
    rewrite H, <- (indices_ok_length st H); reflexivity.
Qed.

Lemma chunk_config_new_size size overlap min snl rs cfg :
  chunk_config_new size overlap min snl rs = inr cfg -> 0 < chunk_size cfg.
Proof.
  unfold chunk_config_new.
  destruct (size <=? 0)%Z eqn:E1; [discriminate|].
  repeat match goal with |- context [if ?b then _ else _] => destruct b end; try discriminate.
  intros H; injection H as <-; simpl; apply Z.leb_gt in E1; lia.
Qed.

Lemma chunk_config_new_ok size overlap min snl rs :
  (0 < size)%Z -> (0 <= overlap)%Z -> (overlap < size)%Z -> (0 < min)%Z -> (min <= size)%Z ->
  chunk_config_new size overlap min snl rs = inr (cfg_of (chunk_config_new size overlap min snl rs)).
Proof.
  intros H1 H2 H3 H4 H5; unfold chunk_config_new.
  destruct (size <=? 0)%Z eqn:E1; [apply Z.leb_le in E1; lia|].
  destruct (overlap <? 0)%Z eqn:E2; [apply Z.ltb_lt in E2; lia|].
  destruct (overlap >=? size)%Z eqn:E3; [apply Z.geb_le in E3; lia|].
  destruct (min <=? 0)%Z eqn:E4; [apply Z.leb_le in E4; lia|].
  destruct (min >? size)%Z eqn:E5; [apply Z.gtb_lt in E5; lia|].
  reflexivity.
Qed.

(** * Claims *)

(** C1 (code_bug).  Bounded chunk size fails for [RecursiveChunker]: with
    [ChunkConfig(chunk_size=10, chunk_overlap=0, min_chunk_size=1)] the text
    ["aaaaa\nbbbbb"] (one section of 11 characters, two lines of 5) gives the
    single chunk ["aaaaa\nbbbbb"] of 11 characters.  The buffer test
    [current_length + len(subsection) > chunk_size] does not count the
    newline that [join] puts between buffered lines.  This is not the
    fixed-offset split. *)
Lemma recursive_chunk_text_exceeds_chunk_size :
  let cfg := cfg_of (chunk_config_new 10 0 1 true true) in
  let t := s2l "aaaaa" ++ [nl] ++ s2l "bbbbb" in
  chunk_config_new 10 0 1 true true = inr cfg /\
  recursive_chunk_text cfg t tt =
    Some [{| text := t; metadata := tt; start_char := 0; end_char := 11; chunk_index := 0 |}] /\
  chunk_size cfg < length t.
Proof. vm_compute; repeat split; lia. Qed.

(** C2 (code_bug).  [SimpleChunker.chunk_text] always moves the cursor to
    [chunk_end]: the progress test compares [current_pos] with itself, so
    the overlap is never kept.  With [chunk_size=10, chunk_overlap=5,
    min_chunk_size=1] and no boundary search, twenty ["a"] give the windows
    [0,10) and [10,20); the overlap rule would restart at 5 after the
    first window. *)
Lemma simple_cursor_drops_overlap :
  (forall cfg chunk_end, simple_next_pos cfg chunk_end = chunk_end) /\
  let cfg := cfg_of (chunk_config_new 10 5 1 false false) in
  let t := repeat ("a"%char) 20 in
  chunk_config_new 10 5 1 false false = inr cfg /\
  simple_chunk_text cfg t tt =
    Some [{| text := repeat ("a"%char) 10; metadata := tt; start_char := 0; end_char := 10;
             chunk_index := 0 |};
          {| text := repeat ("a"%char) 10; metadata := tt; start_char := 10; end_char := 20;
             chunk_index := 1 |}] /\
  (10 - chunk_overlap cfg > 0).
Proof.
  split; [exact simple_next_pos_eq|].
  vm_compute; repeat split; lia.
Qed.

(** C9 (code_bug).  [RecursiveChunker] locates a joined chunk with
    [text.find(chunk_text)], but the join puts a bare newline where the
    source had stripped whitespace: for ["aaa    \nbbb"] with
    [chunk_size=10] the chunk ["aaa\nbbb"] is not a substring, and its
    [start_char] is -1 (and [end_char] 6). *)
Lemma recursive_chunk_start_not_found :
  let cfg := cfg_of (chunk_config_new 10 0 1 true true) in
  let t := s2l "aaa    " ++ [nl] ++ s2l "bbb" in
  chunk_config_new 10 0 1 true true = inr cfg /\
  recursive_chunk_text cfg t tt =
    Some [{| text := s2l "aaa" ++ [nl] ++ s2l "bbb"; metadata := tt; start_char := -1;
             end_char := 6; chunk_index := 0 |}] /\
  py_find t (s2l "aaa" ++ [nl] ++ s2l "bbb") 0 = (-1)%Z.
Proof. vm_compute; repeat split. Qed.

(** C6.  For every valid [ChunkConfig], every text and every metadata,
    [SimpleChunker.chunk_text] and [RecursiveChunker.chunk_text] return
    (without error) chunks whose [chunk_index] values are [0, 1, ..., n-1]
    in list order. *)
Theorem chunk_indices_contiguous {M} size overlap min snl rs cfg (t : pystr) (md : M) :
  chunk_config_new size overlap min snl rs = inr cfg ->
  (exists cs, simple_chunk_text cfg t md = Some cs /\ map chunk_index cs = seq 0 (length cs)) /\
  (exists cs, recursive_chunk_text cfg t md = Some cs /\ map chunk_index cs = seq 0 (length cs)).
Proof.
  intros H; pose proof (chunk_config_new_size _ _ _ _ _ _ H) as Hs.
  split; [apply simple_chunk_text_some | apply recursive_chunk_text_some]; exact Hs.
Qed.

Lemma chunk_indices_contiguous_witness :
  let cfg := cfg_of (chunk_config_new 10 0 1 true true) in
  chunk_config_new 10 0 1 true true = inr cfg /\
  ((exists cs, simple_chunk_text cfg (s2l "ab. cd") tt = Some cs /\
                map chunk_index cs = seq 0 (length cs)) /\
   (exists cs, recursive_chunk_text cfg (s2l "ab. cd") tt = Some cs /\
                map chunk_index cs = seq 0 (length cs))).
Proof.
  intros cfg; split; [reflexivity|].
  apply (chunk_indices_contiguous 10 0 1 true true); reflexivity.
Defined.

(** ** Real-number and sorting lemmas *)

Section RealLemmas.
Local Open Scope R_scope.

Lemma Rleb_true a b : a <= b -> Rleb a b = true.
Proof. unfold Rleb; destruct (Rle_dec a b); [reflexivity | lra]. Qed.
Lemma Rleb_false a b : b < a -> Rleb a b = false.
Proof. unfold Rleb; destruct (Rle_dec a b); [lra | reflexivity]. Qed.
Lemma Rltb_true a b : a < b -> Rltb a b = true.
Proof. unfold Rltb; destruct (Rlt_dec a b); [reflexivity | lra]. Qed.
Lemma Rltb_false a b : b <= a -> Rltb a b = false.
Proof. unfold Rltb; destruct (Rlt_dec a b); [lra | reflexivity]. Qed.
Lemma Rltb_spec a b : Rltb a b = true <-> a < b.
Proof. unfold Rltb; destruct (Rlt_dec a b); split; intros; (lra || discriminate || auto). Qed.
Lemma Rleb_spec a b : Rleb a b = true <-> a <= b.
Proof. unfold Rleb; destruct (Rle_dec a b); split; intros; (lra || discriminate || auto). Qed.

Lemma Rltb_neg a b : Rltb (- b) (- a) = Rltb a b.
Proof.
  unfold Rltb; destruct (Rlt_dec (- b) (- a)), (Rlt_dec a b); (reflexivity || lra).
Qed.

Lemma sum_sq_nonneg v : 0 <= sum_sq v.
Proof. induction v as [|x r IH]; simpl; [lra | pose proof (Rle_0_sqr x); unfold Rsqr in *; lra]. Qed.

Lemma sum_sq_vdiv v n : sum_sq (vdiv v n) = sum_sq v * (/ n * / n).
Proof. induction v as [|x r IH]; simpl; [ring | rewrite IH; unfold Rdiv; ring]. Qed.

Lemma sum_sq_normalized v :
  0 < l2norm v -> sum_sq (vdiv v (l2norm v)) = 1.
Proof.
  unfold l2norm; intros H.
  rewrite sum_sq_vdiv.
  rewrite <- Rinv_mult.
  rewrite sqrt_sqrt by apply sum_sq_nonneg.
  apply Rinv_r; intros E; rewrite E, sqrt_0 in H; lra.
Qed.

Lemma sum_sq_zero v : sum_sq v = 0 -> Forall (fun x => x = 0) v.
Proof.
  induction v as [|x r IH]; simpl; intros H; constructor.
  - pose proof (sum_sq_nonneg r); pose proof (Rle_0_sqr x); unfold Rsqr in *. nra.
  - apply IH; pose proof (sum_sq_nonneg r); pose proof (Rle_0_sqr x); unfold Rsqr in *. nra.
Qed.

Lemma l2norm_not_pos v : ~ 0 < l2norm v -> Forall (fun x => x = 0) v.
Proof.
  unfold l2norm; intros H; apply sum_sq_zero.
  pose proof (sum_sq_nonneg v).
  destruct (Req_dec (sum_sq v) 0) as [E|E]; [exact E|].
  exfalso; apply H, sqrt_lt_R0; lra.
Qed.






Lemma length_vdiv v n : length (vdiv v n) = length v.
Proof. apply length_map. Qed.

End RealLemmas.

Section SortLemmas.
Local Open Scope R_scope.
Context {A : Type} (key : A -> R).


Lemma insert_asc_perm x l : Permutation (insert_asc key x l) (x :: l).
Proof.
  induction l as [|y r IH]; simpl; [reflexivity|].
  destruct (Rltb (key y) (key x)); [|reflexivity].
  rewrite IH; apply perm_swap.
Qed.

Lemma sort_asc_perm l : Permutation (sort_asc key l) l.
Proof.
  induction l as [|x r IH]; simpl; [reflexivity|].
  rewrite insert_asc_perm, IH; reflexivity.
Qed.

Lemma insert_asc_sorted x l : Sorted (le_key key) l -> Sorted (le_key key) (insert_asc key x l).
Proof.
  induction l as [|y r IH]; simpl; intros H; [repeat constructor|].
  destruct (Rltb (key y) (key x)) eqn:E.
  - apply Rltb_spec in E; apply Sorted_inv in H as [Hr Hy].
    constructor; [apply IH, Hr|].
    destruct r as [|z r']; simpl; [constructor; unfold le_key; lra|].
    destruct (Rltb (key z) (key x)); constructor; unfold le_key.
    + inversion Hy; assumption.
    + lra.
  - assert (Hxy : key x <= key y)
      by (destruct (Rle_lt_dec (key x) (key y)) as [h|h];
          [exact h | rewrite Rltb_true in E by exact h; discriminate]).
    constructor; [exact H | constructor; unfold le_key; lra].
Qed.

Lemma sort_asc_sorted l : Sorted (le_key key) (sort_asc key l).
Proof. induction l as [|x r IH]; simpl; [constructor | apply insert_asc_sorted, IH]. Qed.

End SortLemmas.

Section SortDescLemmas.
Local Open Scope R_scope.
Context {A : Type} (key : A -> R).

Lemma sort_desc_as_asc l : sort_desc key l = sort_asc (fun a => - key a) l.
Proof.
  induction l as [|x r IH]; simpl; [reflexivity|]; rewrite IH.
  generalize (sort_asc (fun a => - key a) r); intros s.
  induction s as [|y s IHs]; simpl; [reflexivity|].
  rewrite Rltb_neg; destruct (Rltb (key x) (key y)); [rewrite IHs|]; reflexivity.
Qed.

Lemma sort_desc_perm l : Permutation (sort_desc key l) l.
Proof. rewrite sort_desc_as_asc; apply (sort_asc_perm (fun a => - key a)). Qed.

Lemma sort_desc_sorted l : Sorted (ge_key key) (sort_desc key l).
Proof.
  rewrite sort_desc_as_asc.
  generalize (sort_asc_sorted (fun a => - key a) l).
  induction 1 as [|a l' _ IH Hd]; constructor; [exact IH|].
  destruct Hd; constructor; unfold le_key, ge_key in *; lra.
Qed.



End SortDescLemmas.

(** ** Vector store lemmas *)

Lemma ms_normalize_unit_or_zero e : unit_or_zero (ms_normalize e).
Proof.
  unfold ms_normalize, unit_or_zero.
  destruct (Rlt_dec 0 (l2norm e)) as [h|h];
    [left; apply sum_sq_normalized, h | right; apply l2norm_not_pos, h].
Qed.

Lemma ms_normalize_pos e : (0 < l2norm e)%R -> ms_normalize e = vdiv e (l2norm e).
Proof. unfold ms_normalize; destruct (Rlt_dec 0 (l2norm e)); [reflexivity | contradiction]. Qed.

Lemma ms_normalize_not_pos e : ~ (0 < l2norm e)%R -> ms_normalize e = e.
Proof. unfold ms_normalize; destruct (Rlt_dec 0 (l2norm e)); [contradiction | reflexivity]. Qed.

Lemma Forall_dict_set {V} (P : V -> Prop) d k v :
  Forall (fun kv => P (snd kv)) d -> P v -> Forall (fun kv => P (snd kv)) (dict_set d k v).
Proof.
  induction d as [|[k' v'] r IH]; simpl; intros H Hv; [constructor; auto|].
  inversion H; subst.
  destruct (String.eqb k k'); constructor; auto.
Qed.

Lemma ms_add_loop_unit st i pairs ids md :
  Forall (fun kv => unit_or_zero (snd kv)) (ms_embeddings st) ->
  Forall (fun kv => unit_or_zero (snd kv)) (ms_embeddings (snd (ms_add_loop st i pairs ids md))).
Proof.
  revert st i; induction pairs as [|[t e] ps IH]; simpl; intros st i H; [exact H|].
  destruct (nth_error ids i); [|exact H].
  apply IH; simpl; apply Forall_dict_set; [exact H | apply ms_normalize_unit_or_zero].
Qed.

Lemma ms_run_unit st calls :
  Forall (fun kv => unit_or_zero (snd kv)) (ms_embeddings st) ->
  Forall (fun kv => unit_or_zero (snd kv)) (ms_embeddings (ms_run st calls)).
Proof.
  unfold ms_run; revert st; induction calls as [|c cs IH]; simpl; intros st H; [exact H|].
  apply IH; unfold ms_add_texts.
  destruct (ms_add_loop _ _ _ _ _) as [ok st'] eqn:E; simpl.
  change st' with (snd (ok, st')); rewrite <- E; apply ms_add_loop_unit, H.
Qed.

(** C3 (corrected), counterexample.  [MemoryStore.add_texts] stores a zero
    embedding unchanged (norm 0, the guard [if norm > 0]), and
    [MemoryVectorStore.add_text] stores [[2, 0]] as given (norm 2). *)
Lemma stored_embedding_not_unit :
  ms_embeddings (snd (ms_add_texts (fun _ => "id0"%string) (ms_empty "cosine")
                        [s2l "a"] [[0; 0]%R] None None)) = [("id0"%string, [0; 0]%R)] /\
  l2norm [0; 0]%R = 0%R /\
  mv_embeddings (mv_add_text (fun m : Meta => m) mv_empty (s2l "a") None (Some [2; 0]%R) [] [])
    = [[2; 0]%R] /\
  l2norm [2; 0]%R = 2%R.
Proof.
  assert (H0 : l2norm [0; 0]%R = 0%R).
  { unfold l2norm; cbn [sum_sq]; replace (0 * 0 + (0 * 0 + 0))%R with 0%R by ring; apply sqrt_0. }
  assert (H2 : l2norm [2; 0]%R = 2%R).
  { unfold l2norm; cbn [sum_sq]; replace (2 * 2 + (0 * 0 + 0))%R with (2 * 2)%R by ring.
    apply sqrt_square; lra. }
  split; [|split; [exact H0 | split; [reflexivity | exact H2]]].
  cbn -[ms_normalize]; rewrite ms_normalize_not_pos; [reflexivity|].
  rewrite H0; lra.
Qed.

(** C3 (corrected), amended.  [MemoryStore.add_texts] divides each
    supplied embedding by its L2 norm when that norm is positive, so after
    any sequence of calls every stored embedding has unit length or is the
    zero vector, stored unchanged; [MemoryVectorStore.add_text] and
    [add_texts] store the embeddings exactly as supplied. *)
Theorem memory_store_insertion_normalizes :
  (forall metric calls,
     Forall (fun kv => unit_or_zero (snd kv)) (ms_embeddings (ms_run (ms_empty metric) calls))) /\
  (forall e, (0 < l2norm e)%R -> sum_sq (ms_normalize e) = 1%R) /\
  (forall e, ~ (0 < l2norm e)%R -> ms_normalize e = e) /\
  (forall Obj (items : Obj -> Meta) st t md e pe empty,
     mv_embeddings (mv_add_text items st t md (Some e) pe empty) = mv_embeddings st ++ [e]) /\
  (forall Obj (st : MVStore Obj) texts mds es pes empties,
     mv_embeddings (mv_add_texts st texts mds (Some es) pes empties) = mv_embeddings st ++ es).
Proof.
  split; [intros; apply ms_run_unit; constructor|].
  split; [intros e H; rewrite ms_normalize_pos by exact H; apply sum_sq_normalized, H|].
  split; [exact ms_normalize_not_pos|].
  split; intros; reflexivity.
Qed.

Lemma memory_store_insertion_normalizes_witness :
  sum_sq (ms_normalize [3; 4]%R) = 1%R /\ ms_normalize [0]%R = [0]%R.
Proof.
  assert (H5 : l2norm [3; 4]%R = 5%R).
  { unfold l2norm; cbn [sum_sq]; replace (3 * 3 + (4 * 4 + 0))%R with (5 * 5)%R by ring.
    apply sqrt_square; lra. }
  assert (H0 : l2norm [0]%R = 0%R).
  { unfold l2norm; cbn [sum_sq]; replace (0 * 0 + 0)%R with 0%R by ring; apply sqrt_0. }
  split.
  - apply (proj1 (proj2 memory_store_insertion_normalizes)); rewrite H5; lra.
  - apply (proj1 (proj2 (proj2 memory_store_insertion_normalizes))); rewrite H0; lra.
Defined.

Lemma dict_get_set {V} (d : list (string * V)) k v k' :
  dict_get (dict_set d k v) k' = if String.eqb k' k then Some v else dict_get d k'.
Proof.
  induction d as [|[k0 v0] r IH]; simpl.
  - reflexivity.
  - destruct (String.eqb k k0) eqn:E.
    + apply String.eqb_eq in E; subst k0; simpl.
      destruct (String.eqb k' k); reflexivity.
    + simpl; rewrite IH.
      destruct (String.eqb k' k0) eqn:E1; destruct (String.eqb k' k) eqn:E2; try reflexivity.
      apply String.eqb_eq in E1, E2; subst; rewrite String.eqb_refl in E; discriminate.
Qed.

Lemma length_dict_set_fresh {V} (d : list (string * V)) k v :
  dict_get d k = None -> length (dict_set d k v) = S (length d).
Proof.
  induction d as [|[k0 v0] r IH]; simpl; intros H; [reflexivity|].
  destruct (String.eqb k k0); [discriminate | simpl; rewrite IH by exact H; reflexivity].
Qed.

Lemma ms_add_loop_fresh (uuid4 : nat -> string) n md :
  (forall a b, uuid4 a = uuid4 b -> a = b) ->
  forall pairs st i, i + length pairs <= n ->
  (forall j, i <= j -> dict_get (ms_embeddings st) (uuid4 j) = None) ->
  fst (ms_add_loop st i pairs (map uuid4 (seq 0 n)) md) = true /\
  length (ms_embeddings (snd (ms_add_loop st i pairs (map uuid4 (seq 0 n)) md)))
    = length (ms_embeddings st) + length pairs.
Proof.
  intros Hinj pairs; induction pairs as [|[t e] ps IH]; simpl; intros st i Hn Hfresh.
  - split; [reflexivity | lia].
  - rewrite nth_error_map, nth_error_seq.
    destruct (i <? n) eqn:E; [|apply Nat.ltb_ge in E; lia]; simpl.
    match goal with |- context [ms_add_loop ?s (S i) ps _ _] =>
      destruct (IH s (S i)) as [H1 H2]; [lia| |] end.
    + intros j Hj; simpl; rewrite dict_get_set.
      destruct (String.eqb (uuid4 j) (uuid4 i)) eqn:Eq;
        [apply String.eqb_eq, Hinj in Eq; lia | apply Hfresh; lia].
    + split; [exact H1|]; rewrite H2; simpl.
      rewrite length_dict_set_fresh by (apply Hfresh; lia); lia.
Qed.

(** C8 (corrected), counterexample.  Two texts and one embedding:
    [MemoryStore.add_texts] raises nothing, returns two ids and stores one
    record; [MemoryVectorStore.add_texts] raises nothing and leaves two
    texts next to one embedding. *)
Lemma add_texts_mismatch_accepted :
  let uuid4 := fun n => match n with 0 => "id0"%string | _ => "id1"%string end in
  let r := ms_add_texts uuid4 (ms_empty "cosine") [s2l "a"; s2l "b"] [[1]%R] None None in
  fst r = Some ["id0"%string; "id1"%string] /\
  length (ms_embeddings (snd r)) = 1 /\ length (ms_texts (snd r)) = 1 /\
  let st := mv_add_texts (Obj:=Meta) mv_empty [s2l "a"; s2l "b"] None (Some [[1]%R]) [] [[]; []] in
  length (mv_texts st) = 2 /\ length (mv_embeddings st) = 1.
Proof. repeat split. Qed.

(** C8 (corrected), amended.  No length check: with generated ids,
    [MemoryStore.add_texts] raises nothing, returns one id per text and
    stores the [min(len(texts), len(embeddings))] pairs of [zip]; and
    [MemoryVectorStore.add_texts] extends its texts and embeddings lists by
    their own lengths. *)
Theorem add_texts_without_length_check :
  (forall (uuid4 : nat -> string) st texts embs md,
     (forall a b, uuid4 a = uuid4 b -> a = b) ->
     (forall j, dict_get (ms_embeddings st) (uuid4 j) = None) ->
     fst (ms_add_texts uuid4 st texts embs md None) = Some (map uuid4 (seq 0 (length texts))) /\
     length (ms_embeddings (snd (ms_add_texts uuid4 st texts embs md None)))
       = length (ms_embeddings st) + Nat.min (length texts) (length embs)) /\
  (forall Obj (st : MVStore Obj) texts mds es pes empties,
     length (mv_texts (mv_add_texts st texts mds (Some es) pes empties))
       = length (mv_texts st) + length texts /\
     length (mv_embeddings (mv_add_texts st texts mds (Some es) pes empties))
       = length (mv_embeddings st) + length es).
Proof.
  split.
  - intros uuid4 st texts embs md Hinj Hfresh; unfold ms_add_texts.
    destruct (ms_add_loop_fresh uuid4 (length texts) md Hinj (combine texts embs) st 0)
      as [H1 H2]; [rewrite length_combine; lia | intros; apply Hfresh |].
    destruct (ms_add_loop _ _ _ _ _) as [ok st'].
    simpl in *; subst ok; split; [reflexivity|].
    rewrite H2, length_combine; reflexivity.
  - intros; simpl; rewrite !length_app; split; reflexivity.
Qed.

Lemma add_texts_without_length_check_witness :
  fst (ms_add_texts (fun n => string_of_list_ascii (repeat "x"%char n)) (ms_empty "cosine")
         [s2l "a"; s2l "b"] [[1]%R] None None)
    = Some [""%string; "x"%string] /\
  length (ms_embeddings (snd (ms_add_texts (fun n => string_of_list_ascii (repeat "x"%char n))
          (ms_empty "cosine") [s2l "a"; s2l "b"] [[1]%R] None None))) = 0 + Nat.min 2 1.
Proof.
  apply (proj1 add_texts_without_length_check).
  - intros a b H.
    apply (f_equal (fun s => length (list_ascii_of_string s))) in H.
    rewrite !list_ascii_of_string_of_list_ascii, !repeat_length in H; exact H.
  - intros j; reflexivity.
Defined.

Lemma mv_results_shape {Obj} (st : MVStore Obj) ranked :
  forall pos res, mv_results st pos ranked = Some res ->
  forall i r, nth_error res i = Some r ->
  exists idx t m,
    nth_error ranked i = Some (idx, sr_score r) /\
    nth_error (mv_texts st) idx = Some t /\ nth_error (mv_metadatas st) idx = Some m /\
    sr_chunk r = {| text := t; metadata := m; start_char := 0%Z;
                    end_char := Z.of_nat (length t); chunk_index := pos + i |}.
Proof.
  induction ranked as [|[idx score] rk IH]; simpl; intros pos res H i r Hi.
  - injection H as <-; destruct i; discriminate.
  - destruct (nth_error (mv_texts st) idx) as [t|] eqn:Et; [|discriminate].
    destruct (nth_error (mv_metadatas st) idx) as [m|] eqn:Em; [|discriminate].
    destruct (mv_results st (S pos) rk) as [res'|] eqn:Er; [|discriminate].
    simpl in H; injection H as <-.
    destruct i as [|i]; simpl in Hi.
    + injection Hi as <-; exists idx, t, m; simpl.
      repeat split; try assumption; rewrite Nat.add_0_r; reflexivity.
    + destruct (IH (S pos) res' Er i r Hi) as (idx' & t' & m' & H1 & H2 & H3 & H4).
      exists idx', t', m'; repeat split; try assumption.
      rewrite H4, Nat.add_succ_r; reflexivity.
Qed.

(** C10 (confirmed).  Every result of [MemoryVectorStore.similarity_search]
    carries a [TextChunk] built from a stored record [idx]: its text is
    [self.texts[idx]], its metadata is the very object [self.metadatas[idx]]
    (the same value of the abstract object type, not a copy), [start_char]
    is 0, [end_char] is the length of the stored text, and [chunk_index] is
    the position [i] of the result in the returned list. *)
Theorem similarity_search_chunk_fields {Obj} (items : Obj -> Meta) (st : MVStore Obj)
  q k min_score filters res :
  similarity_search items st q k min_score filters = Some res ->
  forall i r, nth_error res i = Some r ->
  exists idx t m,
    nth_error (mv_texts st) idx = Some t /\ nth_error (mv_metadatas st) idx = Some m /\
    text (sr_chunk r) = t /\ metadata (sr_chunk r) = m /\
    start_char (sr_chunk r) = 0%Z /\ end_char (sr_chunk r) = Z.of_nat (length t) /\
    chunk_index (sr_chunk r) = i.
Proof.
  unfold similarity_search; intros H i r Hi.
  destruct (mv_embeddings st) as [|e es]; [injection H as <-; destruct i; discriminate|].
  destruct (forallb _ _); [|discriminate].
  destruct (mv_candidates _ _ _ _ _ _); [|discriminate].
  destruct (mv_results_shape st _ 0 res H i r Hi) as (idx & t & m & _ & H2 & H3 & H4).
  exists idx, t, m; rewrite H4; repeat split; assumption.
Qed.

Lemma similarity_search_chunk_fields_witness :
  let st := {| mv_texts := [s2l "a"; s2l "bb"]; mv_embeddings := [[1%R]; [2%R]];
               mv_metadatas := [[("k"%string, "v"%string)]; []] |} in
  exists res r,
    similarity_search (fun m : Meta => m) st [1%R] 2 0 [] = Some res /\
    nth_error res 0 = Some r /\
    exists idx t m,
      nth_error (mv_texts st) idx = Some t /\ nth_error (mv_metadatas st) idx = Some m /\
      text (sr_chunk r) = t /\ metadata (sr_chunk r) = m /\
      start_char (sr_chunk r) = 0%Z /\ end_char (sr_chunk r) = Z.of_nat (length t) /\
      chunk_index (sr_chunk r) = 0.
Proof.
  intros st.
  assert (E : exists res, similarity_search (fun m : Meta => m) st [1%R] 2 0 [] = Some res
                          /\ length res = 2).
  { unfold similarity_search; cbn -[Rleb Rltb].
    rewrite !Rleb_true by lra.
    cbn -[Rltb]; rewrite Rltb_true by lra.
    eexists; split; reflexivity. }
  destruct E as (res & E & Hl).
  destruct res as [|r res']; [discriminate|].
  exists (r :: res'), r; split; [exact E|]; split; [reflexivity|].
  exact (similarity_search_chunk_fields (fun m : Meta => m) st [1%R] 2 0 [] _ E 0 r eq_refl).
Defined.

(** ** Search lemmas *)

Lemma sorted_firstn {A} (Rel : A -> A -> Prop) n l :
  Sorted Rel l -> Sorted Rel (firstn n l).
Proof.
  revert l; induction n as [|n IH]; intros l H; [constructor|].
  destruct l as [|x l]; [constructor|]; simpl.
  apply Sorted_inv in H as [Hs Hh]; constructor; [apply IH, Hs|].
  destruct n, l; simpl; inversion Hh; constructor; assumption.
Qed.

Lemma sorted_map_key {A} (P : A -> A -> Prop) (Rel : R -> R -> Prop) (f : A -> R) l :
  (forall a b, P a b -> Rel (f a) (f b)) -> Sorted P l -> Sorted Rel (map f l).
Proof.
  intros HP; induction 1 as [|x l Hs IH Hh]; simpl; constructor; [exact IH|].
  destruct Hh; simpl; constructor; apply HP; assumption.
Qed.


Lemma py_take_sorted {A} (Rel : A -> A -> Prop) k l :
  Sorted Rel l -> Sorted Rel (py_take k l).
Proof. unfold py_take; destruct (0 <=? k)%Z; apply sorted_firstn. Qed.

Lemma py_take_incl {A} k (l : list A) x : In x (py_take k l) -> In x l.
Proof.
  unfold py_take; intros H; destruct (0 <=? k)%Z;
    match type of H with In _ (firstn ?n _) =>
      rewrite <- (firstn_skipn n l); apply in_or_app; left; exact H end.
Qed.




Lemma mv_results_some {Obj} (st : MVStore Obj) ranked :
  (forall p, In p ranked -> fst p < length (mv_texts st) /\ fst p < length (mv_metadatas st)) ->
  forall pos, exists res, mv_results st pos ranked = Some res /\ map sr_score res = map snd ranked.
Proof.
  induction ranked as [|[idx s] rk IH]; intros H pos; simpl; [exists []; split; reflexivity|].
  destruct (H (idx, s) (or_introl eq_refl)) as [H1 H2]; simpl in H1, H2.
  destruct (nth_error (mv_texts st) idx) eqn:E1; [|apply nth_error_None in E1; lia].
  destruct (nth_error (mv_metadatas st) idx) eqn:E2; [|apply nth_error_None in E2; lia].
  destruct (IH (fun p Hp => H p (or_intror Hp)) (S pos)) as (res & E & Hm).
  rewrite E; simpl; eexists; split; [reflexivity|]; simpl; rewrite Hm; reflexivity.
Qed.

Lemma l2norm_1_0 : l2norm [1; 0]%R = 1%R.
Proof. unfold l2norm; simpl; replace (1 * 1 + (0 * 0 + 0))%R with 1%R by ring; apply sqrt_1. Qed.




(** ** Duplicate suppression lemmas *)

Lemma dot_vdiv u v a b :
  dot_aux (vdiv u a) (vdiv v b) = (dot_aux u v * (/ a * / b))%R.
Proof.
  revert v; induction u as [|x u IH]; destruct v as [|y v]; simpl; try ring.
  rewrite IH; unfold Rdiv; ring.
Qed.

Lemma dot_normalize u v : dot_aux (normalize u) (normalize v) = cosine u v.
Proof.
  unfold normalize, cosine; rewrite dot_vdiv; unfold Rdiv; rewrite Rinv_mult; reflexivity.
Qed.

Lemma length_normalize v : length (normalize v) = length v.
Proof. apply length_vdiv. Qed.

Lemma dup_check_existsb {Obj} (embed : pystr -> list R) thr d (u : list R)
  (acc : list (RetrievedChunk Obj)) :
  length u = d ->
  Forall (fun a => length (embed (text (rc_chunk a))) = d) acc ->
  dup_check thr (normalize u) (map (fun a => normalize (embed (text (rc_chunk a)))) acc)
  = Some (existsb (fun a => Rltb thr (cosine u (embed (text (rc_chunk a))))) acc).
Proof.
  intros Hu; induction acc as [|a acc IH]; intros Hall; simpl; [reflexivity|].
  apply Forall_cons_iff in Hall as [Ha Hall].
  unfold np_dot; rewrite !length_normalize, Hu, Ha, Nat.eqb_refl, dot_normalize.
  destruct (Rltb thr _); [reflexivity | apply IH, Hall].
Qed.

Lemma dedup_loop_greedy {Obj} (embed : pystr -> list R) thr d (cs : list (RetrievedChunk Obj)) :
  forall acc,
  Forall (fun c => length (embed (text (rc_chunk c))) = d) (acc ++ cs) ->
  dedup_loop embed thr cs (acc, map (fun a => normalize (embed (text (rc_chunk a)))) acc) =
  Some (greedy_accept embed thr acc cs,
        map (fun a => normalize (embed (text (rc_chunk a)))) (greedy_accept embed thr acc cs)).
Proof.
  induction cs as [|c cs IH]; intros acc Hall; simpl; [reflexivity|].
  apply Forall_app in Hall as [Hacc Hcs].
  apply Forall_cons_iff in Hcs as [Hc Hcs].
  rewrite (dup_check_existsb embed thr d _ acc Hc Hacc).
  destruct (existsb _ acc).
  - apply IH, Forall_app; split; assumption.
  - simpl.
    replace (_ ++ [normalize (embed (text (rc_chunk c)))])
      with (map (fun a => normalize (embed (text (rc_chunk a)))) (acc ++ [c]))
      by (rewrite map_app; reflexivity).
    apply IH; rewrite <- app_assoc; apply Forall_app; split; [exact Hacc|].
    constructor; assumption.
Qed.

Lemma filter_duplicates_greedy {Obj} (embed : pystr -> list R) thr d
  (cs : list (RetrievedChunk Obj)) :
  Forall (fun c => length (embed (text (rc_chunk c))) = d) cs ->
  filter_duplicates_fn embed thr cs = Some (greedy_accept embed thr [] cs).
Proof.
  intros Hall; destruct cs as [|c cs]; [reflexivity|]; unfold filter_duplicates_fn.
  replace (dedup_loop embed thr (c :: cs) ([], []))
    with (dedup_loop embed thr (c :: cs)
            ([], map (fun a : RetrievedChunk Obj => normalize (embed (text (rc_chunk a))))
                   [])) by reflexivity.
  rewrite (dedup_loop_greedy embed thr d (c :: cs) [] Hall); reflexivity.
Qed.

Lemma renumber_chunks {Obj} (l : list (RetrievedChunk Obj)) :
  forall i, map rc_chunk (renumber i l) = map rc_chunk l.
Proof. induction l as [|c l IH]; intros i; simpl; [reflexivity | rewrite IH; reflexivity]. Qed.

(** C5 (confirmed).  (a) Where every candidate's embedding has the same
    dimension [d] (and a nonzero norm: NumPy yields nan for a zero one),
    [_filter_duplicates] returns exactly the candidates the greedy rule
    keeps: a candidate is dropped when the cosine similarity of its
    embedding to that of a previously accepted candidate is strictly above
    the threshold, and the kept ones stay in their order.  (b) With
    [filter_duplicates] on (and no reranking), [retrieve] applies this rule
    to the index's results in the order the index returned them.  (c) Of
    two candidates whose embeddings have cosine similarity 0.99, under
    threshold 0.95 only the first is returned. *)
Theorem duplicate_suppression_greedy :
  (forall Obj (embed : pystr -> list R) thr d (cs : list (RetrievedChunk Obj)),
     Forall (fun c => length (embed (text (rc_chunk c))) = d /\
                      (0 < l2norm (embed (text (rc_chunk c))))%R) cs ->
     filter_duplicates_fn embed thr cs = Some (greedy_accept embed thr [] cs)) /\
  (forall Obj (embed : pystr -> list R) cfg (results : list (SearchResult Obj)) d,
     filter_duplicates cfg = true -> rerank_results cfg = false ->
     Forall (fun r => length (embed (text (sr_chunk r))) = d /\
                      (0 < l2norm (embed (text (sr_chunk r))))%R) results ->
     retrieve_from_results embed cfg results =
       Some (py_take (top_k cfg)
               (renumber 0 (greedy_accept embed (duplicate_threshold cfg) []
                  (renumber 0 (map (fun r => {| rc_chunk := sr_chunk r; similarity := sr_score r;
                                                rank := 0 |}) results)))))) /\
  (forall Obj (embed : pystr -> list R) (c1 c2 : RetrievedChunk Obj),
     length (embed (text (rc_chunk c2))) = length (embed (text (rc_chunk c1))) ->
     (0 < l2norm (embed (text (rc_chunk c1))))%R ->
     (0 < l2norm (embed (text (rc_chunk c2))))%R ->
     cosine (embed (text (rc_chunk c2))) (embed (text (rc_chunk c1))) = (99 / 100)%R ->
     filter_duplicates_fn embed (95 / 100)%R [c1; c2] = Some [c1]).
Proof.
  split; [|split].
  - intros Obj embed thr d cs Hall; apply (filter_duplicates_greedy embed thr d).
    eapply Forall_impl; [|exact Hall]; intros c [H _]; exact H.
  - intros Obj embed cfg results d Hf Hr Hall; unfold retrieve_from_results.
    rewrite Hf, Hr.
    rewrite (filter_duplicates_greedy embed _ d); [reflexivity|].
    apply (Forall_map rc_chunk (fun ch => length (embed (text ch)) = d)).
    rewrite renumber_chunks, map_map; simpl.
    apply Forall_map; eapply Forall_impl; [|exact Hall]; intros r [H _]; exact H.
  - intros Obj embed c1 c2 Hl H1 H2 Hc.
    rewrite (filter_duplicates_greedy embed _ (length (embed (text (rc_chunk c1))))).
    + simpl; rewrite Hc, Rltb_true by lra; reflexivity.
    + repeat constructor; assumption.
Qed.

Lemma duplicate_suppression_greedy_witness :
  let embed := fun t : pystr => if is_nonempty (skipn 1 t) then [99; sqrt 199]%R else [1; 0]%R in
  let ch := fun t : pystr => {| text := t; metadata := @nil (string * string);
                                start_char := 0%Z; end_char := Z.of_nat (length t);
                                chunk_index := 0 |} in
  let c1 := {| rc_chunk := ch (s2l "a"); similarity := 1%R; rank := 1 |} in
  let c2 := {| rc_chunk := ch (s2l "bb"); similarity := 1%R; rank := 2 |} in
  let cfg := {| top_k := 1; min_similarity := 0%R; rerank_results := false;
                filter_duplicates := true; duplicate_threshold := (95 / 100)%R |} in
  filter_duplicates_fn embed (95 / 100)%R [c1; c2]
    = Some (greedy_accept embed (95 / 100)%R [] [c1; c2]) /\
  (exists out, retrieve_from_results embed cfg
                 [{| sr_chunk := ch (s2l "a"); sr_score := 1%R |};
                  {| sr_chunk := ch (s2l "bb"); sr_score := 1%R |}] = Some out) /\
  filter_duplicates_fn embed (95 / 100)%R [c1; c2] = Some [c1].
Proof.
  intros embed ch c1 c2 cfg.
  assert (Hs : (sqrt 199 * sqrt 199 = 199)%R) by (apply sqrt_sqrt; lra).
  assert (Hn1 : l2norm [1; 0]%R = 1%R) by apply l2norm_1_0.
  assert (Hn2 : l2norm [99; sqrt 199]%R = 100%R).
  { unfold l2norm; simpl; rewrite Hs.
    replace (99 * 99 + (199 + 0))%R with (100 * 100)%R by ring.
    apply sqrt_square; lra. }
  split; [|split].
  - apply (proj1 duplicate_suppression_greedy _ _ _ 2).
    apply Forall_cons; [|apply Forall_cons; [|apply Forall_nil]]; cbn -[l2norm];
      (split; [reflexivity|]); [rewrite Hn1 | rewrite Hn2]; lra.
  - eexists; apply (proj1 (proj2 duplicate_suppression_greedy) _ _ _ _ 2); try reflexivity.
    apply Forall_cons; [|apply Forall_cons; [|apply Forall_nil]]; cbn -[l2norm];
      (split; [reflexivity|]); [rewrite Hn1 | rewrite Hn2]; lra.
  - apply (proj2 (proj2 duplicate_suppression_greedy)); cbn -[l2norm].
    + reflexivity.
    + rewrite Hn1; lra.
    + rewrite Hn2; lra.
    + unfold cosine; rewrite Hn1, Hn2; cbn; field.
Defined.

(** ** Configuration lemmas *)

Lemma mv_candidates_some {Obj} (items : Obj -> Meta) (st : MVStore Obj) ms filters sims :
  forall i, i + length sims <= length (mv_metadatas st) ->
  exists l, mv_candidates items st ms filters i sims = Some l /\
    forall p, In p l -> i <= fst p < i + length sims.
Proof.
  induction sims as [|s r IH]; intros i Hi; simpl.
  - exists []; split; [reflexivity | intros p []].
  - simpl in Hi; destruct (IH (S i)) as (l & E & Hl); [lia|].
    assert (Hcons : forall b : bool, exists l' : list (nat * R),
      (if b then option_map (cons (i, s)) (Some l) else Some l) = Some l' /\
      forall p, In p l' -> i <= fst p < i + S (length r)).
    { intros [|]; (eexists; split; [reflexivity|]); simpl.
      - intros p [<-|Hp]; [simpl; lia | apply Hl in Hp; lia].
      - intros p Hp; apply Hl in Hp; lia. }
    rewrite E; destruct (is_nonempty_list filters).
    + destruct (nth_error (mv_metadatas st) i) eqn:Em; [|apply nth_error_None in Em; lia].
      destruct (negb _); [|apply Hcons].
      exists l; split; [reflexivity|]; intros p Hp; apply Hl in Hp; lia.
    + apply Hcons.
Qed.

Lemma similarity_search_some {Obj} (items : Obj -> Meta) (st : MVStore Obj) q k ms filters d :
  length (mv_texts st) = length (mv_embeddings st) ->
  length (mv_metadatas st) = length (mv_embeddings st) ->
  length q = d -> Forall (fun e => length e = d) (mv_embeddings st) ->
  exists res, similarity_search items st q k ms filters = Some res /\
    Forall (fun r => In (text (sr_chunk r)) (mv_texts st)) res.
Proof.
  intros Ht Hm Hq Hall; unfold similarity_search.
  destruct (mv_embeddings st) as [|e es] eqn:Ees; [exists []; split; constructor|].
  replace (forallb _ _) with true.
  2:{ symmetry; apply forallb_forall; intros x Hx; apply Nat.eqb_eq.
      rewrite Forall_forall in Hall; rewrite (Hall x Hx); symmetry; exact Hq. }
  destruct (mv_candidates_some items st ms filters (map (fun e0 => dot_aux e0 q) (e :: es)) 0)
    as (l & E & Hl); [rewrite length_map, Hm; lia|].
  rewrite E.
  destruct (mv_results_some st (py_take k (sort_desc snd l))) with (pos := 0) as (res & Er & _).
  { intros p Hp; apply py_take_incl in Hp.
    apply (Permutation_in _ (sort_desc_perm snd l)), Hl in Hp.
    rewrite length_map in Hp; rewrite Ht, Hm; lia. }
  exists res; split; [exact Er|].
  apply Forall_forall; intros r Hr; apply In_nth_error in Hr as (i & Hi).
  destruct (mv_results_shape st _ 0 res Er i r Hi) as (idx & t & m & _ & H2 & _ & H4).
  rewrite H4; simpl; apply nth_error_In with idx; exact H2.
Qed.

Lemma retrieve_some {Obj} (items : Obj -> Meta) (embed : pystr -> list R) cfg
  (st : MVStore Obj) query filters d :
  length (mv_texts st) = length (mv_embeddings st) ->
  length (mv_metadatas st) = length (mv_embeddings st) ->
  length (embed query) = d -> Forall (fun e => length e = d) (mv_embeddings st) ->
  Forall (fun t => length (embed t) = d) (mv_texts st) ->
  exists out, retrieve items embed cfg st query filters = Some out.
Proof.
  intros Ht Hm Hq Hall Htexts; unfold retrieve.
  destruct (similarity_search_some items st (embed query)
              (if filter_duplicates cfg then (top_k cfg * 2)%Z else top_k cfg)
              (min_similarity cfg) filters d Ht Hm Hq Hall) as (res & E & Hres).
  rewrite E; unfold retrieve_from_results.
  destruct (filter_duplicates cfg); [|eexists; reflexivity].
  rewrite (filter_duplicates_greedy embed _ d); [simpl; eexists; reflexivity|].
  apply (Forall_map rc_chunk (fun ch => length (embed (text ch)) = d)).
  rewrite renumber_chunks, map_map; simpl.
  apply Forall_map; eapply Forall_impl; [|exact Hres]; intros r Hr.
  rewrite Forall_forall in Htexts; apply Htexts, Hr.
Qed.

(** C7 (confirmed).  (a) [ChunkConfig(...)] raises exactly when
    [chunk_size <= 0], [chunk_overlap < 0], [chunk_overlap >= chunk_size],
    [min_chunk_size <= 0] or [min_chunk_size > chunk_size]; (b) in
    particular [ChunkConfig(chunk_size=0)],
    [ChunkConfig(chunk_size=100, chunk_overlap=100)] and
    [ChunkConfig(chunk_size=100, min_chunk_size=101)] raise (the other
    fields take their defaults 512, 50, 20, True, True); (c)
    [RetrievalConfig(...)] raises exactly when [top_k <= 0] or
    [min_similarity] or [duplicate_threshold] lies outside [[0, 1]]; (d)
    with a constructed [ChunkConfig], both chunkers return a list for every
    text; (e) with a constructed [RetrievalConfig], [retrieve] returns a
    list whenever the store's lists have equal lengths and the query, the
    stored embeddings and the embeddings of the stored texts share one
    dimension. *)
Theorem config_errors_at_construction :
  (forall size overlap min snl rs,
     (exists e, chunk_config_new size overlap min snl rs = inl e) <->
     (size <= 0 \/ overlap < 0 \/ overlap >= size \/ min <= 0 \/ min > size)%Z) /\
  (exists e1 e2 e3,
     chunk_config_new 0 50 20 true true = inl e1 /\
     chunk_config_new 100 100 20 true true = inl e2 /\
     chunk_config_new 100 50 101 true true = inl e3) /\
  (forall k min_sim rerank fd thr,
     (exists e, retrieval_config_new k min_sim rerank fd thr = inl e) <->
     ((k <= 0)%Z \/ ~ (0 <= min_sim <= 1)%R \/ ~ (0 <= thr <= 1)%R)) /\
  (forall size overlap min snl rs cfg,
     chunk_config_new size overlap min snl rs = inr cfg ->
     forall M (t : pystr) (md : M),
       (exists cs, simple_chunk_text cfg t md = Some cs) /\
       (exists cs, recursive_chunk_text cfg t md = Some cs)) /\
  (forall k min_sim rerank fd thr cfg,
     retrieval_config_new k min_sim rerank fd thr = inr cfg ->
     forall Obj (items : Obj -> Meta) (embed : pystr -> list R) (st : MVStore Obj)
            query filters d,
       length (mv_texts st) = length (mv_embeddings st) ->
       length (mv_metadatas st) = length (mv_embeddings st) ->
       length (embed query) = d -> Forall (fun e => length e = d) (mv_embeddings st) ->
       Forall (fun t => length (embed t) = d) (mv_texts st) ->
       exists out, retrieve items embed cfg st query filters = Some out).
Proof.
  split; [|split; [|split; [|split]]].
  - intros size overlap min snl rs; unfold chunk_config_new.
    rewrite Z.geb_leb, Z.gtb_ltb.
    destruct (Z.leb_spec size 0);
      [split; [intros _; lia | intros _; eexists; reflexivity]|].
    destruct (Z.ltb_spec overlap 0);
      [split; [intros _; lia | intros _; eexists; reflexivity]|].
    destruct (Z.leb_spec size overlap);
      [split; [intros _; lia | intros _; eexists; reflexivity]|].
    destruct (Z.leb_spec min 0);
      [split; [intros _; lia | intros _; eexists; reflexivity]|].
    destruct (Z.ltb_spec size min);
      [split; [intros _; lia | intros _; eexists; reflexivity]|].
    split; [intros [e He]; discriminate | lia].
  - do 3 eexists; repeat split.
  - intros k min_sim rerank fd thr; unfold retrieval_config_new, Rleb.
    destruct (Z.leb_spec k 0);
      [split; [intros _; left; lia | intros _; eexists; reflexivity]|].
    destruct (Rle_dec 0 min_sim), (Rle_dec min_sim 1); simpl;
      try (split; [intros _; right; left; intros [? ?]; lra
                  | intros _; eexists; reflexivity]).
    destruct (Rle_dec 0 thr), (Rle_dec thr 1); simpl;
      try (split; [intros _; right; right; intros [? ?]; lra
                  | intros _; eexists; reflexivity]).
    split; [intros [e He]; discriminate|].
    intros [Hk|[Hm|Hth]]; exfalso; [lia | apply Hm; split; assumption | apply Hth; split; assumption].
  - intros size overlap min snl rs cfg E M t md.
    pose proof (chunk_config_new_size _ _ _ _ _ _ E) as Hs.
    destruct (simple_chunk_text_some cfg t md Hs) as (cs & E1 & _).
    destruct (recursive_chunk_text_some cfg t md Hs) as (cs' & E2 & _).
    split; eexists; eassumption.
  - intros k min_sim rerank fd thr cfg _ Obj items embed st query filters d.
    apply retrieve_some.
Qed.

Lemma config_errors_at_construction_witness :
  let rcfg := {| top_k := 5; min_similarity := (6 / 10)%R; rerank_results := true;
                 filter_duplicates := true; duplicate_threshold := (95 / 100)%R |} in
  let st := {| mv_texts := [s2l "a"]; mv_embeddings := [[1; 0]%R];
               mv_metadatas := [@nil (string * string)] |} in
  ((exists cs, simple_chunk_text (cfg_of (chunk_config_new 100 50 20 true true)) (s2l "abc") tt
               = Some cs) /\
   (exists cs, recursive_chunk_text (cfg_of (chunk_config_new 100 50 20 true true)) (s2l "abc") tt
               = Some cs)) /\
  exists out, retrieve (fun m : Meta => m) (fun _ => [1; 0]%R) rcfg st (s2l "q") [] = Some out.
Proof.
  intros rcfg st; split.
  - apply (proj1 (proj2 (proj2 (proj2 config_errors_at_construction))) 100%Z 50%Z 20%Z true true).
    reflexivity.
  - apply (proj2 (proj2 (proj2 (proj2 config_errors_at_construction))) 5%Z (6 / 10)%R true true
             (95 / 100)%R rcfg) with (d := 2).
    + unfold retrieval_config_new; rewrite !Rleb_true by lra; reflexivity.
    + reflexivity.
    + reflexivity.
    + reflexivity.
    + repeat constructor.
    + repeat constructor.
Defined.

(** * Further properties *)

(** ** String lemmas *)

Lemma drop_while_split p s : exists x, s = x ++ drop_while p s.
Proof.
  induction s as [|c r [x IH]]; simpl; [exists []; reflexivity|].
  destruct (p c); [exists (c :: x); simpl; f_equal; exact IH | exists []; reflexivity].
Qed.

Lemma drop_while_idem p s : drop_while p (drop_while p s) = drop_while p s.
Proof.
  induction s as [|c r IH]; simpl; [reflexivity|].
  destruct (p c) eqn:E; [exact IH | simpl; rewrite E; reflexivity].
Qed.

Lemma length_drop_while p s : length (drop_while p s) <= length s.
Proof. induction s as [|c r IH]; simpl; [lia | destruct (p c); simpl; lia]. Qed.

Lemma length_strip s : length (strip s) <= length s.
Proof.
  unfold strip; rewrite length_rev.
  pose proof (length_drop_while is_space (rev (drop_while is_space s))).
  pose proof (length_drop_while is_space s).
  rewrite length_rev in *; lia.
Qed.

Lemma strip_infix s : exists a b, s = a ++ strip s ++ b.
Proof.
  destruct (drop_while_split is_space s) as [x Hx].
  destruct (drop_while_split is_space (rev (drop_while is_space s))) as [y Hy].
  exists x, (rev y); unfold strip.
  rewrite Hx at 1; f_equal.
  rewrite <- rev_app_distr, <- Hy, rev_involutive; reflexivity.
Qed.

(** The part [rev (drop_while p (rev u))] is a prefix of [u]. *)
Lemma rev_drop_while_prefix p u : exists y, u = rev (drop_while p (rev u)) ++ y.
Proof.
  destruct (drop_while_split p (rev u)) as [x Hx].
  exists (rev x); rewrite <- rev_app_distr, <- Hx, rev_involutive; reflexivity.
Qed.

Lemma drop_while_head p c r : p c = false -> drop_while p (c :: r) = c :: r.
Proof. simpl; intros ->; reflexivity. Qed.

Lemma strip_idem s : strip (strip s) = strip s.
Proof.
  unfold strip at 1 2.
  set (u := drop_while is_space s).
  set (w := rev (drop_while is_space (rev u))).
  assert (Hw : drop_while is_space w = w).
  { destruct (rev_drop_while_prefix is_space u) as [y Hy]; fold w in Hy.
    destruct w as [|c r] eqn:Ew; [reflexivity|].
    apply drop_while_head.
    assert (Hu : drop_while is_space u = u) by apply drop_while_idem.
    rewrite Hy in Hu; simpl in Hu.
    destruct (is_space c) eqn:Ec; [|reflexivity].
    exfalso; pose proof (length_drop_while is_space (r ++ y)) as Hl.
    rewrite Hu in Hl; simpl in Hl; lia. }
  rewrite Hw; unfold w; rewrite rev_involutive, drop_while_idem; reflexivity.
Qed.

Lemma split_on_head c s : exists p ps, split_on c s = p :: ps /\ exists b, s = p ++ b.
Proof.
  induction s as [|x r IH]; simpl; [exists [], []; split; [reflexivity | exists []; reflexivity]|].
  destruct (ascii_eqb x c).
  - exists [], (split_on c r); split; [reflexivity | exists (x :: r); reflexivity].
  - destruct IH as (p & ps & -> & b & Hb).
    exists (x :: p), ps; split; [reflexivity | exists b; rewrite Hb; reflexivity].
Qed.

Lemma split_on_infix c s p : In p (split_on c s) -> exists a b, s = a ++ p ++ b.
Proof.
  revert p; induction s as [|x r IH]; simpl; intros p Hp.
  - destruct Hp as [<-|[]]; exists [], []; reflexivity.
  - destruct (ascii_eqb x c).
    + destruct Hp as [<-|Hp]; [exists [], (x :: r); reflexivity|].
      destruct (IH p Hp) as (a & b & ->); exists (x :: a), b; reflexivity.
    + destruct (split_on_head c r) as (p0 & ps & E & b0 & Hb0); rewrite E in Hp, IH.
      destruct Hp as [<-|Hp].
      * exists [], b0; rewrite Hb0; reflexivity.
      * destruct (IH p (or_intror Hp)) as (a & b & ->); exists (x :: a), b; reflexivity.
Qed.

Lemma split_on_length c s p : In p (split_on c s) -> length p <= length s.
Proof.
  intros H; destruct (split_on_infix c s p H) as (a & b & ->).
  rewrite !length_app; lia.
Qed.

Lemma split_on_nonempty c s : split_on c s <> [].
Proof. destruct (split_on_head c s) as (p & ps & -> & _); discriminate. Qed.

Lemma ascii_eqb_true a b : ascii_eqb a b = true -> a = b.
Proof. unfold ascii_eqb; destruct (ascii_dec a b); [auto | discriminate]. Qed.

Lemma ascii_eqb_refl a : ascii_eqb a a = true.
Proof. unfold ascii_eqb; destruct (ascii_dec a a); [reflexivity | contradiction]. Qed.

Lemma prefixb_app w b : prefixb w (w ++ b) = true.
Proof. induction w as [|x w IH]; simpl; [reflexivity | rewrite ascii_eqb_refl, IH; reflexivity]. Qed.

Lemma prefixb_firstn w s : prefixb w s = true -> firstn (length w) s = w.
Proof.
  revert s; induction w as [|x w IH]; intros s H; [reflexivity|].
  destruct s as [|y s]; simpl in H; [discriminate|].
  apply andb_prop in H as [H1 H2]; apply ascii_eqb_true in H1; subst y.
  simpl; f_equal; apply IH, H2.
Qed.

(** [find] locates any substring that occurs: at an index whose slice is
    that substring. *)
Lemma find_aux_found w s : forall a b k, s = a ++ w ++ b ->
  exists i, find_aux w s k = Z.of_nat (k + i) /\ firstn (length w) (skipn i s) = w.
Proof.
  induction s as [|x r IH]; intros a b k Hs.
  - destruct a, w; try discriminate; exists 0; simpl; split; [f_equal; lia | reflexivity].
  - simpl; destruct (prefixb w (x :: r)) eqn:E.
    + exists 0; split; [f_equal; lia | apply prefixb_firstn, E].
    + destruct a as [|y a].
      * simpl in Hs; rewrite Hs, prefixb_app in E; discriminate.
      * injection Hs as _ Hr.
        destruct (IH a b (S k) Hr) as (i & Hi & Hf).
        exists (S i); split; [rewrite Hi; f_equal; lia | exact Hf].
Qed.

Lemma py_find_found t w cur a b :
  cur <= length t -> skipn cur t = a ++ w ++ b ->
  exists i, py_find t w cur = Z.of_nat (cur + i) /\
            slice t (cur + i) (cur + i + length w) = w.
Proof.
  intros Hc Hs; unfold py_find.
  destruct (Nat.leb_spec cur (length t)) as [_|]; [|lia].
  destruct (find_aux_found w _ a b cur Hs) as (i & Hi & Hf).
  exists i; split; [exact Hi|].
  unfold slice; replace (cur + i + length w - (cur + i)) with (length w) by lia.
  rewrite skipn_skipn in Hf; replace (cur + i) with (i + cur) by lia; exact Hf.
Qed.

Lemma slice_infix t cur e : exists a b, skipn cur t = a ++ slice t cur e ++ b.
Proof.
  exists [], (skipn (e - cur) (skipn cur t)); unfold slice; simpl.
  symmetry; apply firstn_skipn.
Qed.

Lemma length_slice t cur e : length (slice t cur e) <= e - cur.
Proof. unfold slice; rewrite length_firstn; lia. Qed.

Lemma newline_match_starts_bound s : forall k x,
  In x (newline_match_starts s k) -> k <= x < k + length s.
Proof.
  induction s as [|c r IH]; simpl; intros k x H; [contradiction|].
  destruct (ascii_eqb c nl); [destruct H as [<-|H]; [lia|]|];
    apply IH in H; lia.
Qed.

Lemma find_newline_boundary_le cfg t s e : find_newline_boundary cfg t s e <= e.
Proof.
  unfold find_newline_boundary.
  destruct (find _ _) as [p|] eqn:E; [|lia].
  apply find_some in E as [E _]; apply filter_In in E as [E _].
  apply in_map_iff in E as (x & <- & Hx).
  apply newline_match_starts_bound in Hx; pose proof (length_slice t s e); lia.
Qed.

Lemma last_le_le bs e : last_le bs e <= e.
Proof.
  unfold last_le; destruct (find _ _) as [p|] eqn:E; [|lia].
  apply find_some in E as [_ E]; apply Nat.leb_le, E.
Qed.

Lemma find_sentence_boundary_le cfg t s e : find_sentence_boundary cfg t s e <= e.
Proof. unfold find_sentence_boundary; destruct (filter _ _); [lia | apply last_le_le]. Qed.

(** Every SimpleChunker window ends at most [chunk_size] after its start. *)
Lemma simple_chunk_end_le cfg t pos :
  simple_chunk_end cfg t pos <= pos + chunk_size cfg.
Proof.
  unfold simple_chunk_end; cbv zeta.
  pose proof (find_newline_boundary_le cfg t pos (Nat.min (pos + chunk_size cfg) (length t))).
  destruct (split_on_newline cfg && _); [destruct (_ <? find_newline_boundary _ _ _ _)|];
    destruct (_ && respect_sentences cfg);
    try (destruct (_ <? find_sentence_boundary _ _ _ _));
    try match goal with |- find_sentence_boundary ?c ?t ?p ?e <= _ =>
          pose proof (find_sentence_boundary_le c t p e) end; lia.
Qed.

(** ** SimpleChunker: what every chunk is made of *)

Lemma in_removelast {A} (l : list A) x : In x (removelast l) -> In x l.
Proof.
  intros H; destruct l as [|y r]; [contradiction|].
  rewrite (app_removelast_last y (l := y :: r)) by discriminate.
  apply in_or_app; left; exact H.
Qed.

Lemma in_last {A} (l : list A) d : l <> [] -> In (last l d) l.
Proof.
  intros H; rewrite (app_removelast_last d H) at 2.
  apply in_or_app; right; left; reflexivity.
Qed.

Section SimpleChunks.
Context {M : Type} (cfg : ChunkConfig) (md : M) (t : pystr) (P : TextChunk M -> Prop).

(** The texts a window at [cur] can emit: its stripped slice, or one
    stripped line of it. *)
Hypothesis HP : forall cur w i,
  cur < length t -> is_nonempty w = true ->
  (w = strip (slice t cur (simple_chunk_end cfg t cur)) \/
   exists l, In l (split_on nl (strip (slice t cur (simple_chunk_end cfg t cur)))) /\ w = strip l) ->
  P {| text := w; metadata := md; start_char := py_find t w cur;
       end_char := (py_find t w cur + Z.of_nat (length w))%Z; chunk_index := i |}.

Lemma Forall_emit w s (st : Emitter M) :
  Forall P (chunks st) ->
  P {| text := w; metadata := md; start_char := s; end_char := (s + Z.of_nat (length w))%Z;
       chunk_index := next_index st |} ->
  Forall P (chunks (emit md w s st)).
Proof. intros H1 H2; simpl; apply Forall_app; split; [exact H1 | constructor; [exact H2 | constructor]]. Qed.

Lemma Forall_emit_lines cur lines st :
  cur < length t ->
  incl lines (split_on nl (strip (slice t cur (simple_chunk_end cfg t cur)))) ->
  Forall P (chunks st) -> Forall P (chunks (emit_lines md t cur lines st)).
Proof.
  intros Hc; revert st; induction lines as [|l ls IH]; simpl; intros st Hin H; [exact H|].
  apply IH; [intros x Hx; apply Hin; right; exact Hx|].
  destruct (is_nonempty (strip l)) eqn:E; [|exact H].
  apply Forall_emit; [exact H|].
  apply HP; [exact Hc | exact E | right; exists l; split; [apply Hin; left|]; reflexivity].
Qed.

Lemma Forall_simple_window cur st :
  cur < length t -> Forall P (chunks st) ->
  Forall P (chunks (simple_emit_window cfg md t cur (simple_chunk_end cfg t cur) st)).
Proof.
  intros Hc H; unfold simple_emit_window.
  set (ct := strip (slice t cur (simple_chunk_end cfg t cur))).
  destruct (is_nonempty ct) eqn:E; [|exact H].
  destruct (split_on_newline cfg && _); simpl.
  - assert (Hl : Forall P (chunks (emit_lines md t cur (removelast (split_on nl ct)) st))).
    { apply Forall_emit_lines; [exact Hc | | exact H].
      intros x Hx; apply in_removelast, Hx. }
    destruct (is_nonempty (strip (last (split_on nl ct) []))) eqn:E2; [|exact Hl].
    apply Forall_emit; [exact Hl|].
    apply HP; [exact Hc | exact E2 | right; exists (last (split_on nl ct) []); split; [|reflexivity]].
    apply in_last, split_on_nonempty.
  - rewrite E; apply Forall_emit; [exact H|].
    apply HP; [exact Hc | exact E | left; reflexivity].
Qed.

Lemma Forall_simple_loop fuel pos st st' :
  Forall P (chunks st) -> simple_loop fuel cfg md t pos st = Some st' -> Forall P (chunks st').
Proof.
  revert pos st; induction fuel as [|f IH]; simpl; intros pos st H E;
    destruct (pos <? length t) eqn:Ep; try congruence.
  apply Nat.ltb_lt in Ep.
  eapply IH; [apply Forall_simple_window; [exact Ep | exact H] | exact E].
Qed.

Lemma Forall_simple_chunk_text cs :
  simple_chunk_text cfg t md = Some cs -> Forall P cs.
Proof.
  unfold simple_chunk_text; intros H.
  pose proof (Forall_simple_loop (length t) 0 emitter0) as Hl.
  destruct (simple_loop (length t) cfg md t 0 emitter0) as [st|] eqn:E.
  - assert (H' : cs = [] \/ cs = chunks st)
      by (clear - H; destruct t; [left | right]; simpl in H; congruence).
    destruct H' as [->| ->]; [constructor | apply (Hl st (Forall_nil _) eq_refl)].
  - assert (H' : cs = []) by (clear - H; destruct t; simpl in H; congruence).
    rewrite H'; constructor.
Qed.

End SimpleChunks.

Lemma infix_trans {A} (x y z : list A) :
  (exists a b, y = a ++ x ++ b) -> (exists a b, z = a ++ y ++ b) -> exists a b, z = a ++ x ++ b.
Proof.
  intros (a1 & b1 & H1) (a2 & b2 & H2); exists (a2 ++ a1), (b1 ++ b2).
  rewrite H2, H1, <- !app_assoc; reflexivity.
Qed.

(** Every text a SimpleChunker window emits occurs in the source at or
    after the window start. *)
Lemma simple_piece_infix cfg t cur w :
  (w = strip (slice t cur (simple_chunk_end cfg t cur)) \/
   exists l, In l (split_on nl (strip (slice t cur (simple_chunk_end cfg t cur)))) /\ w = strip l) ->
  exists a b, skipn cur t = a ++ w ++ b.
Proof.
  set (s := slice t cur (simple_chunk_end cfg t cur)).
  assert (Hs : exists a b, skipn cur t = a ++ strip s ++ b)
    by exact (infix_trans _ _ _ (strip_infix s) (slice_infix t cur _)).
  intros [->|(l & Hl & ->)]; [exact Hs|].
  exact (infix_trans _ _ _ (strip_infix l) (infix_trans _ _ _ (split_on_infix _ _ _ Hl) Hs)).
Qed.

Lemma simple_piece_length cfg t cur w :
  (w = strip (slice t cur (simple_chunk_end cfg t cur)) \/
   exists l, In l (split_on nl (strip (slice t cur (simple_chunk_end cfg t cur)))) /\ w = strip l) ->
  length w <= chunk_size cfg.
Proof.
  set (s := slice t cur (simple_chunk_end cfg t cur)).
  assert (Hs : length (strip s) <= chunk_size cfg).
  { pose proof (length_strip s); pose proof (length_slice t cur (simple_chunk_end cfg t cur)).
    pose proof (simple_chunk_end_le cfg t cur); unfold s in *; lia. }
  intros [->|(l & Hl & ->)]; [exact Hs|].
  pose proof (length_strip l); pose proof (split_on_length _ _ _ Hl); lia.
Qed.

Lemma simple_piece_stripped cfg t cur w :
  (w = strip (slice t cur (simple_chunk_end cfg t cur)) \/
   exists l, In l (split_on nl (strip (slice t cur (simple_chunk_end cfg t cur)))) /\ w = strip l) ->
  strip w = w.
Proof. intros [->|(l & _ & ->)]; apply strip_idem. Qed.

(** X1.  No SimpleChunker chunk is longer than [chunk_size]: every window
    spans at most [chunk_size] characters, and stripping and splitting on
    newlines only shorten it. *)
Theorem simple_chunk_text_within_size {M} cfg t (md : M) cs :
  simple_chunk_text cfg t md = Some cs ->
  Forall (fun c => length (text c) <= chunk_size cfg) cs.
Proof.
  apply Forall_simple_chunk_text; intros cur w i _ _ Hw; simpl.
  exact (simple_piece_length cfg t cur w Hw).
Qed.

(** X2.  Every SimpleChunker chunk text is non-empty and already stripped:
    it has no leading or trailing whitespace. *)
Theorem simple_chunk_text_stripped {M} cfg t (md : M) cs :
  simple_chunk_text cfg t md = Some cs ->
  Forall (fun c => is_nonempty (text c) = true /\ strip (text c) = text c) cs.
Proof.
  apply Forall_simple_chunk_text; intros cur w i _ Hne Hw; simpl.
  split; [exact Hne | exact (simple_piece_stripped cfg t cur w Hw)].
Qed.

(** X3.  SimpleChunker offsets are genuine: for every chunk,
    [0 <= start_char], [end_char = start_char + len(chunk.text)] and
    [text[start_char:end_char] == chunk.text]. *)
Theorem simple_chunk_text_offsets {M} cfg t (md : M) cs :
  simple_chunk_text cfg t md = Some cs ->
  Forall (fun c => (0 <= start_char c)%Z /\
                   end_char c = (start_char c + Z.of_nat (length (text c)))%Z /\
                   slice t (Z.to_nat (start_char c)) (Z.to_nat (end_char c)) = text c) cs.
Proof.
  apply Forall_simple_chunk_text; intros cur w i Hc _ Hw; simpl.
  destruct (simple_piece_infix cfg t cur w Hw) as (a & b & Hab).
  destruct (py_find_found t w cur a b) as (k & Hk & Hsl); [lia | exact Hab |].
  rewrite Hk; split; [lia | split; [reflexivity|]].
  rewrite <- Nat2Z.inj_add, !Nat2Z.id; exact Hsl.
Qed.

Lemma simple_chunk_text_within_size_witness :
  exists cs,
    simple_chunk_text (cfg_of (chunk_config_new 10 2 1 true true))
      (s2l "ab cd." ++ [nl] ++ s2l "ef gh ij kl. mn") tt = Some cs /\ length cs = 3 /\
    Forall (fun c => length (text c) <= chunk_size (cfg_of (chunk_config_new 10 2 1 true true))) cs.
Proof.
  destruct (simple_chunk_text (cfg_of (chunk_config_new 10 2 1 true true))
              (s2l "ab cd." ++ [nl] ++ s2l "ef gh ij kl. mn") tt) as [cs|] eqn:E;
    [|vm_compute in E; discriminate].
  exists cs; split; [reflexivity|]; split;
    [pose proof E as E'; vm_compute in E'; injection E' as <-; reflexivity|].
  revert E; apply simple_chunk_text_within_size.
Defined.

Lemma simple_chunk_text_stripped_witness :
  exists cs,
    simple_chunk_text (cfg_of (chunk_config_new 10 2 1 true true))
      (s2l "ab cd." ++ [nl] ++ s2l "ef gh ij kl. mn") tt = Some cs /\ length cs = 3 /\
    Forall (fun c => is_nonempty (text c) = true /\ strip (text c) = text c) cs.
Proof.
  destruct (simple_chunk_text (cfg_of (chunk_config_new 10 2 1 true true))
              (s2l "ab cd." ++ [nl] ++ s2l "ef gh ij kl. mn") tt) as [cs|] eqn:E;
    [|vm_compute in E; discriminate].
  exists cs; split; [reflexivity|]; split;
    [pose proof E as E'; vm_compute in E'; injection E' as <-; reflexivity|].
  revert E; apply simple_chunk_text_stripped.
Defined.

Lemma simple_chunk_text_offsets_witness :
  exists cs,
    simple_chunk_text (cfg_of (chunk_config_new 10 2 1 true true))
      (s2l "ab cd." ++ [nl] ++ s2l "ef gh ij kl. mn") tt = Some cs /\ length cs = 3 /\
    Forall (fun c => (0 <= start_char c)%Z /\ end_char c = (start_char c + Z.of_nat (length (text c)))%Z /\ slice (s2l "ab cd." ++ [nl] ++ s2l "ef gh ij kl. mn") (Z.to_nat (start_char c)) (Z.to_nat (end_char c)) = text c) cs.
Proof.
  destruct (simple_chunk_text (cfg_of (chunk_config_new 10 2 1 true true))
              (s2l "ab cd." ++ [nl] ++ s2l "ef gh ij kl. mn") tt) as [cs|] eqn:E;
    [|vm_compute in E; discriminate].
  exists cs; split; [reflexivity|]; split;
    [pose proof E as E'; vm_compute in E'; injection E' as <-; reflexivity|].
  revert E; apply simple_chunk_text_offsets.
Defined.

(** ** MemoryStore, MemoryVectorStore, retrieval and recursive chunker *)

Lemma dict_get_pop {V} (d : list (string * V)) k k' :
  dict_get (dict_pop d k) k' = if String.eqb k' k then None else dict_get d k'.
Proof.
  induction d as [|[k0 v0] d IH]; simpl.
  - destruct (String.eqb k' k); reflexivity.
  - destruct (String.eqb k k0) eqn:E1; simpl.
    + apply String.eqb_eq in E1; subst k0; rewrite IH.
      destruct (String.eqb k' k); reflexivity.
    + rewrite IH; destruct (String.eqb k' k0) eqn:E2; [|reflexivity].
      apply String.eqb_eq in E2; subst k0.
      destruct (String.eqb k' k) eqn:E3; [|reflexivity].
      apply String.eqb_eq in E3; subst k; rewrite String.eqb_refl in E1; discriminate.
Qed.

Lemma dict_get_In {V} (d : list (string * V)) k v : dict_get d k = Some v -> In (k, v) d.
Proof.
  induction d as [|[k0 v0] d IH]; simpl; [discriminate|].
  destruct (String.eqb k k0) eqn:E; intros H.
  - apply String.eqb_eq in E; subst; injection H as ->; left; reflexivity.
  - right; apply IH, H.
Qed.

Lemma dict_get_keys {V W} (d1 : list (string * V)) (d2 : list (string * W)) k :
  map fst d1 = map fst d2 -> dict_get d1 k = None <-> dict_get d2 k = None.
Proof.
  revert d2; induction d1 as [|[k1 v1] d1 IH]; intros [|[k2 v2] d2] H; simpl in *;
    try discriminate; [tauto|].
  injection H as -> H; destruct (String.eqb k k2); [split; discriminate | apply IH, H].
Qed.

Lemma keys_dict_set {V W} (d1 : list (string * V)) (d2 : list (string * W)) k v w :
  map fst d1 = map fst d2 -> map fst (dict_set d1 k v) = map fst (dict_set d2 k w).
Proof.
  revert d2; induction d1 as [|[k1 v1] d1 IH]; intros [|[k2 v2] d2] H; simpl in *;
    try discriminate; [reflexivity|].
  injection H as -> H; destruct (String.eqb k k2); simpl; [congruence|].
  f_equal; apply IH, H.
Qed.

Lemma keys_dict_pop {V W} (d1 : list (string * V)) (d2 : list (string * W)) k :
  map fst d1 = map fst d2 -> map fst (dict_pop d1 k) = map fst (dict_pop d2 k).
Proof.
  revert d2; induction d1 as [|[k1 v1] d1 IH]; intros [|[k2 v2] d2] H; simpl in *;
    try discriminate; [reflexivity|].
  injection H as -> H; destruct (String.eqb k k2); simpl; [|f_equal]; apply IH, H.
Qed.

Lemma ms_get_by_id_store st id t e md k :
  ms_get_by_id (ms_store st id t e md) k =
  if String.eqb k id
  then Some (Some {| vs_id := k; vs_text := t; vs_metadata := md; vs_score := 0%R;
                     vs_embedding := e |})
  else ms_get_by_id st k.
Proof.
  unfold ms_get_by_id, ms_store; cbn [ms_texts ms_embeddings ms_metadata].
  rewrite !dict_get_set; destruct (String.eqb k id); reflexivity.
Qed.

Lemma ms_delete_fold st ids : snd (ms_delete st ids) = fold_left ms_pop ids st.
Proof. reflexivity. Qed.

Lemma ms_get_by_id_pop st id k :
  ms_get_by_id (ms_pop st id) k = if String.eqb k id then Some None else ms_get_by_id st k.
Proof.
  unfold ms_get_by_id, ms_pop; cbn [ms_texts ms_embeddings ms_metadata].
  rewrite !dict_get_pop; destruct (String.eqb k id); reflexivity.
Qed.

Lemma ms_get_by_id_pops ids : forall st k,
  ms_get_by_id (fold_left ms_pop ids st) k =
  if existsb (String.eqb k) ids then Some None else ms_get_by_id st k.
Proof.
  induction ids as [|a ids IH]; intros st k; simpl; [reflexivity|].
  rewrite IH, ms_get_by_id_pop.
  destruct (String.eqb k a), (existsb (String.eqb k) ids); reflexivity.
Qed.

Lemma ms_embeddings_pops ids : forall st id e,
  In (id, e) (ms_embeddings (fold_left ms_pop ids st)) ->
  In (id, e) (ms_embeddings st) /\ ~ In id ids.
Proof.
  induction ids as [|a ids IH]; intros st id e H; simpl in H.
  - split; [exact H | intros []].
  - apply IH in H as [H1 H2]; unfold ms_pop, dict_pop in H1; cbn in H1.
    apply filter_In in H1 as [H1 H3]; simpl in H3.
    split; [exact H1|]; intros [->|Hi]; [|exact (H2 Hi)].
    rewrite String.eqb_refl in H3; discriminate.
Qed.

Lemma ms_collect_spec st q f es : forall res,
  ms_collect st q f es = Some res ->
  Forall (fun r => In (vs_id r, vs_embedding r) es /\
                   dict_get (ms_texts st) (vs_id r) = Some (vs_text r) /\
                   dict_get (ms_metadata st) (vs_id r) = Some (vs_metadata r) /\
                   ms_score (distance_metric st) q (vs_embedding r) = Some (vs_score r) /\
                   (is_nonempty_list f = true -> matches_filter (vs_metadata r) f = true)) res.
Proof.
  induction es as [|[id e] es IH]; intros res H; simpl in H.
  - injection H as <-; constructor.
  - destruct (is_nonempty_list f && negb (matches_filter _ f)) eqn:Ef.
    + eapply Forall_impl; [|apply IH, H]; intros r (H1 & H2); split; [right|]; assumption.
    + destruct (ms_score _ q e) as [s|] eqn:Es; [|discriminate].
      destruct (dict_get (ms_texts st) id) as [t|] eqn:Et; [|discriminate].
      destruct (dict_get (ms_metadata st) id) as [md|] eqn:Em; [|discriminate].
      destruct (ms_collect st q f es) as [l|] eqn:El; [|discriminate].
      injection H as <-; constructor.
      * cbn [vs_id vs_embedding vs_text vs_metadata vs_score].
        split; [left; reflexivity|]; split; [exact Et|]; split; [exact Em|].
        split; [exact Es|]; intros Hf; rewrite Hf in Ef; simpl in Ef.
        destruct (dict_get (ms_metadata st) id); [|discriminate].
        injection Em as <-; apply negb_false_iff, Ef.
      * eapply Forall_impl; [|apply IH; reflexivity]; intros r (H1 & H2); split; [right|]; assumption.
Qed.

Lemma length_py_take {A} (k : Z) (l : list A) : (0 <= k)%Z -> length (py_take k l) <= Z.to_nat k.
Proof.
  intros Hk; unfold py_take; destruct (Z.leb_spec 0 k); [|lia].
  rewrite length_firstn; lia.
Qed.

Lemma ms_search_spec st q k f res :
  ms_search st q k f = Some res ->
  Sorted Rle (map vs_score res) /\ ((0 <= k)%Z -> length res <= Z.to_nat k) /\
  Forall (fun r => In (vs_id r, vs_embedding r) (ms_embeddings st) /\
                   dict_get (ms_texts st) (vs_id r) = Some (vs_text r) /\
                   dict_get (ms_metadata st) (vs_id r) = Some (vs_metadata r) /\
                   ms_score (distance_metric st) (vdiv q (l2norm q)) (vs_embedding r)
                     = Some (vs_score r) /\
                   (is_nonempty_list f = true -> matches_filter (vs_metadata r) f = true)) res.
Proof.
  unfold ms_search; intros H.
  destruct (ms_collect _ _ _ _) as [l|] eqn:E; [|discriminate]; injection H as <-.
  split; [|split; [apply length_py_take|]].
  - apply (sorted_map_key (le_key vs_score)); [intros a b Hab; exact Hab|].
    apply py_take_sorted, sort_asc_sorted.
  - apply ms_collect_spec in E; rewrite Forall_forall in E |- *.
    intros r Hr; apply E; apply py_take_incl in Hr.
    exact (Permutation_in _ (sort_asc_perm vs_score l) Hr).
Qed.

Lemma ms_add_loop_other st i pairs ids md k :
  (forall j, i <= j -> nth_error ids j <> Some k) ->
  ms_get_by_id (snd (ms_add_loop st i pairs ids md)) k = ms_get_by_id st k.
Proof.
  revert st i; induction pairs as [|[t e] ps IH]; intros st i Hk; simpl; [reflexivity|].
  destruct (nth_error ids i) as [id|] eqn:Ei; [|reflexivity].
  rewrite IH by (intros j Hj; apply Hk; lia).
  rewrite ms_get_by_id_store; destruct (String.eqb k id) eqn:E; [|reflexivity].
  apply String.eqb_eq in E; subst; exfalso; apply (Hk i); [lia | exact Ei].
Qed.

Lemma ms_add_loop_get ids md : NoDup ids ->
  forall pairs st i j id t e, i <= j ->
  nth_error pairs (j - i) = Some (t, e) -> nth_error ids j = Some id ->
  ms_get_by_id (snd (ms_add_loop st i pairs ids md)) id =
  Some (Some {| vs_id := id; vs_text := t;
                vs_metadata := match md with
                               | Some ((_ :: _) as m) => if j <? length m then nth j m [] else []
                               | _ => []
                               end;
                vs_score := 0%R; vs_embedding := ms_normalize e |}).
Proof.
  intros Hnd pairs; induction pairs as [|[t0 e0] ps IH]; intros st i j id t e Hij Hp Hid.
  - destruct (j - i); discriminate.
  - simpl; destruct (nth_error ids i) as [id0|] eqn:Ei.
    + destruct (Nat.eq_dec j i) as [->|Hne].
      * rewrite Nat.sub_diag in Hp; injection Hp as <- <-.
        rewrite Ei in Hid; injection Hid as <-.
        rewrite ms_add_loop_other.
        -- rewrite ms_get_by_id_store, String.eqb_refl; reflexivity.
        -- intros j Hj Hj'; rewrite <- Ei in Hj'.
           assert (j = i); [|lia].
           apply (proj1 (NoDup_nth_error ids) Hnd); [|exact Hj'].
           apply nth_error_Some; rewrite Hj', Ei; discriminate.
      * apply (IH _ (S i)); [lia | | exact Hid].
        replace (j - i) with (S (j - S i)) in Hp by lia; exact Hp.
    + apply nth_error_None in Ei.
      assert (nth_error ids j = None) as Hn by (apply nth_error_None; lia).
      congruence.
Qed.

Lemma nth_error_combine' {A B} (l1 : list A) (l2 : list B) i a b :
  nth_error l1 i = Some a -> nth_error l2 i = Some b -> nth_error (combine l1 l2) i = Some (a, b).
Proof.
  revert l2 i; induction l1 as [|x l1 IH]; intros [|y l2] [|i] H1 H2; simpl in *;
    try discriminate; [congruence | apply IH; assumption].
Qed.

Lemma ms_store_keys1 st id t e md :
  map fst (ms_texts st) = map fst (ms_embeddings st) ->
  map fst (ms_texts (ms_store st id t e md)) = map fst (ms_embeddings (ms_store st id t e md)).
Proof. apply keys_dict_set. Qed.

Lemma ms_store_keys2 st id t e md :
  map fst (ms_metadata st) = map fst (ms_embeddings st) ->
  map fst (ms_metadata (ms_store st id t e md)) = map fst (ms_embeddings (ms_store st id t e md)).
Proof. apply keys_dict_set. Qed.

Lemma ms_add_loop_keys st i pairs ids md :
  map fst (ms_texts st) = map fst (ms_embeddings st) ->
  map fst (ms_metadata st) = map fst (ms_embeddings st) ->
  let st' := snd (ms_add_loop st i pairs ids md) in
  map fst (ms_texts st') = map fst (ms_embeddings st') /\
  map fst (ms_metadata st') = map fst (ms_embeddings st').
Proof.
  revert st i; induction pairs as [|[t e] ps IH]; intros st i H1 H2; simpl; [split; assumption|].
  destruct (nth_error ids i) as [id|]; [|split; assumption].
  apply IH; [apply ms_store_keys1 | apply ms_store_keys2]; assumption.
Qed.

Lemma ms_call_keys st c :
  map fst (ms_texts st) = map fst (ms_embeddings st) ->
  map fst (ms_metadata st) = map fst (ms_embeddings st) ->
  map fst (ms_texts (ms_call st c)) = map fst (ms_embeddings (ms_call st c)) /\
  map fst (ms_metadata (ms_call st c)) = map fst (ms_embeddings (ms_call st c)).
Proof.
  intros H1 H2; destruct c as [a|ids|]; cbn [ms_call].
  - unfold ms_add_texts; destruct (ms_add_loop _ _ _ _ _) as [ok st'] eqn:E; simpl.
    change st' with (snd (ok, st')); rewrite <- E; apply ms_add_loop_keys; assumption.
  - rewrite ms_delete_fold; revert st H1 H2; induction ids as [|id ids IH]; intros st H1 H2;
      simpl; [split; assumption|].
    apply IH; unfold ms_pop; simpl; apply keys_dict_pop; assumption.
  - split; reflexivity.
Qed.

Lemma ms_calls_keys calls : forall st,
  map fst (ms_texts st) = map fst (ms_embeddings st) ->
  map fst (ms_metadata st) = map fst (ms_embeddings st) ->
  map fst (ms_texts (ms_calls st calls)) = map fst (ms_embeddings (ms_calls st calls)) /\
  map fst (ms_metadata (ms_calls st calls)) = map fst (ms_embeddings (ms_calls st calls)).
Proof.
  unfold ms_calls; induction calls as [|c cs IH]; intros st H1 H2; simpl; [split; assumption|].
  destruct (ms_call_keys st c H1 H2); apply IH; assumption.
Qed.

Lemma dict_get_In_some {V} (d : list (string * V)) k v : In (k, v) d -> dict_get d k <> None.
Proof.
  induction d as [|[k0 v0] d IH]; simpl; [intros []|].
  intros [Heq|Hi]; destruct (String.eqb k k0) eqn:E; try discriminate.
  - injection Heq as -> ->; rewrite String.eqb_refl in E; discriminate.
  - apply IH, Hi.
Qed.

Lemma ms_score_some metric q e : length e = length q -> exists s, ms_score metric q e = Some s.
Proof.
  intros H; unfold ms_score, np_dot, np_sub; rewrite H, Nat.eqb_refl.
  destruct (String.eqb metric "cosine"); [eexists; reflexivity|].
  destruct (String.eqb metric "euclidean"); eexists; reflexivity.
Qed.

Lemma ms_collect_some st q f es :
  Forall (fun kv => length (snd kv) = length q /\ dict_get (ms_texts st) (fst kv) <> None /\
                    dict_get (ms_metadata st) (fst kv) <> None) es ->
  exists res, ms_collect st q f es = Some res.
Proof.
  induction es as [|[id e] es IH]; intros H; simpl; [eexists; reflexivity|].
  apply Forall_cons_iff in H as [(Hl & Ht & Hm) H]; simpl in Hl, Ht, Hm.
  destruct (IH H) as [res E].
  destruct (_ && _); [exists res; exact E|].
  destruct (ms_score_some (distance_metric st) q e Hl) as [s Es]; rewrite Es.
  destruct (dict_get (ms_texts st) id); [|contradiction].
  destruct (dict_get (ms_metadata st) id); [|contradiction].
  rewrite E; eexists; reflexivity.
Qed.

Lemma existsb_eqb_In id ids : existsb (String.eqb id) ids = true <-> In id ids.
Proof.
  rewrite existsb_exists; split.
  - intros (x & Hx & E); apply String.eqb_eq in E; subst; exact Hx.
  - intros H; exists id; split; [exact H | apply String.eqb_refl].
Qed.

(** X4.  [MemoryStore.delete] always returns [True]; afterwards
    [get_by_id] returns [None] for every deleted id, answers as before for
    every other id, and no search result carries a deleted id. *)
Theorem ms_delete_removes st ids :
  fst (ms_delete st ids) = true /\
  (forall id, In id ids -> ms_get_by_id (snd (ms_delete st ids)) id = Some None) /\
  (forall id, ~ In id ids -> ms_get_by_id (snd (ms_delete st ids)) id = ms_get_by_id st id) /\
  (forall q k f res, ms_search (snd (ms_delete st ids)) q k f = Some res ->
     Forall (fun r => ~ In (vs_id r) ids) res).
Proof.
  rewrite ms_delete_fold; split; [reflexivity|]; split; [|split].
  - intros id H; rewrite ms_get_by_id_pops; apply existsb_eqb_In in H; rewrite H; reflexivity.
  - intros id H; rewrite ms_get_by_id_pops.
    destruct (existsb (String.eqb id) ids) eqn:E; [apply existsb_eqb_In in E; contradiction|].
    reflexivity.
  - intros q k f res H; apply ms_search_spec in H as (_ & _ & H).
    eapply Forall_impl; [|exact H]; intros r (Hr & _).
    apply ms_embeddings_pops in Hr as [_ Hr]; exact Hr.
Qed.

(** X5.  Round trip of [MemoryStore.add_texts] and [get_by_id]: when the
    ids used (given, or generated by [uuid4]) are distinct, the record at
    position [i] of the zip of texts and embeddings is returned by
    [get_by_id(ids[i])] with its text, the normalised embedding, score 0 and
    the metadata [metadata[i]] (or [{}] when [metadata] is missing, empty or
    too short).  The contents of the store before the call do not matter. *)
Theorem ms_add_texts_get_by_id uuid4 st texts embs metadata ids i id t e :
  NoDup (match ids with Some l => l | None => map uuid4 (seq 0 (length texts)) end) ->
  nth_error (match ids with Some l => l | None => map uuid4 (seq 0 (length texts)) end) i
    = Some id ->
  nth_error texts i = Some t -> nth_error embs i = Some e ->
  ms_get_by_id (snd (ms_add_texts uuid4 st texts embs metadata ids)) id =
  Some (Some {| vs_id := id; vs_text := t;
                vs_metadata := match metadata with
                               | Some ((_ :: _) as m) => if i <? length m then nth i m [] else []
                               | _ => []
                               end;
                vs_score := 0%R; vs_embedding := ms_normalize e |}).
Proof.
  intros Hnd Hid Ht He; unfold ms_add_texts.
  destruct (ms_add_loop _ _ _ _ _) as [ok st'] eqn:E; simpl.
  change st' with (snd (ok, st')); rewrite <- E.
  apply ms_add_loop_get; [exact Hnd | lia | | exact Hid].
  rewrite Nat.sub_0_r; apply nth_error_combine'; assumption.
Qed.

(** X6.  After [MemoryStore.clear] (which returns [True]), [get_by_id]
    returns [None] for every id, every search returns [[]] and [get_stats]
    counts 0 texts and 0 embeddings; after [MemoryVectorStore.clear] every
    [similarity_search] returns [[]]. *)
Theorem clear_empties_store {Obj} (items : Obj -> Meta) cfg st (mst : MVStore Obj) :
  fst (ms_clear st) = true /\
  (forall id, ms_get_by_id (snd (ms_clear st)) id = Some None) /\
  (forall q k f, ms_search (snd (ms_clear st)) q k f = Some []) /\
  total_texts (ms_get_stats cfg (snd (ms_clear st))) = 0 /\
  total_embeddings (ms_get_stats cfg (snd (ms_clear st))) = 0 /\
  (forall q k min_score filters,
     similarity_search items (mv_clear mst) q k min_score filters = Some []).
Proof.
  repeat split; intros; try reflexivity.
  unfold ms_search; simpl; unfold py_take; destruct (0 <=? k)%Z;
    rewrite firstn_nil; reflexivity.
Qed.


(** X8.  Starting from a constructed [MemoryStore], after any sequence of
    [add_texts] (including calls that raise part-way), [delete] and [clear]
    calls, the three dicts have the same keys: [get_by_id] never raises,
    [get_stats] reports as many texts as embeddings, and [search] succeeds
    whenever every stored embedding has the query's dimension. *)
Theorem ms_calls_consistent cfg st0 calls :
  memory_store_new cfg = inr st0 ->
  (forall id, ms_get_by_id (ms_calls st0 calls) id <> None) /\
  total_texts (ms_get_stats cfg (ms_calls st0 calls)) =
    total_embeddings (ms_get_stats cfg (ms_calls st0 calls)) /\
  (forall q k f, Forall (fun kv => length (snd kv) = length q) (ms_embeddings (ms_calls st0 calls)) ->
     exists res, ms_search (ms_calls st0 calls) q k f = Some res).
Proof.
  intros Hnew.
  assert (H0 : ms_texts st0 = [] /\ ms_embeddings st0 = [] /\ ms_metadata st0 = []).
  { unfold memory_store_new in Hnew.
    destruct (String.eqb _ _); [discriminate|]; destruct (_ <=? _)%Z; [discriminate|].
    injection Hnew as <-; repeat split. }
  destruct H0 as (E1 & E2 & E3).
  destruct (ms_calls_keys calls st0) as [H1 H2]; [rewrite E1, E2; reflexivity | rewrite E2, E3; reflexivity|].
  set (st := ms_calls st0 calls) in *.
  split; [|split].
  - intros id; unfold ms_get_by_id.
    destruct (dict_get (ms_texts st) id) as [t|] eqn:Et; [|discriminate].
    destruct (dict_get (ms_embeddings st) id) eqn:Ee; [discriminate|].
    apply (dict_get_keys _ _ id H1) in Ee; congruence.
  - unfold ms_get_stats; simpl.
    rewrite <- (length_map fst (ms_texts st)), H1, length_map; reflexivity.
  - intros q k f Hl; unfold ms_search.
    destruct (ms_collect_some st (vdiv q (l2norm q)) f (ms_embeddings st)) as [res E].
    + rewrite Forall_forall in Hl |- *; intros [id e] Hi; simpl.
      rewrite length_vdiv; split; [apply (Hl _ Hi)|].
      pose proof (dict_get_In_some _ _ _ Hi) as Hs.
      split; intros Hn; apply Hs.
      * apply (dict_get_keys _ _ id H1), Hn.
      * apply (dict_get_keys _ _ id H2), Hn.
    + rewrite E; eexists; reflexivity.
Qed.

Lemma ms_add_texts_get_by_id_witness :
  NoDup ["a"%string; "b"%string] /\ nth_error ["a"%string; "b"%string] 1 = Some "b"%string /\
  nth_error [s2l "x"; s2l "y"] 1 = Some (s2l "y") /\ nth_error [[3; 4]%R; [1]%R] 1 = Some [1]%R /\
  ms_get_by_id (snd (ms_add_texts (fun _ => ""%string) (ms_empty "cosine") [s2l "x"; s2l "y"]
                       [[3; 4]%R; [1]%R] (Some [[("k"%string, "v"%string)]])
                       (Some ["a"%string; "b"%string]))) "b"%string =
  Some (Some {| vs_id := "b"; vs_text := s2l "y";
                vs_metadata := match Some [[("k"%string, "v"%string)]] with
                               | Some ((_ :: _) as m) => if 1 <? length m then nth 1 m [] else []
                               | _ => []
                               end;
                vs_score := 0%R; vs_embedding := ms_normalize [1]%R |}).
Proof.
  assert (Hnd : NoDup ["a"%string; "b"%string])
    by (constructor; [simpl; intros [H|[]]; discriminate | constructor; [intros [] | constructor]]).
  split; [exact Hnd|]; split; [reflexivity|]; split; [reflexivity|]; split; [reflexivity|].
  apply (ms_add_texts_get_by_id (fun _ => ""%string) (ms_empty "cosine") [s2l "x"; s2l "y"]
           [[3; 4]%R; [1]%R] (Some [[("k"%string, "v"%string)]]) (Some ["a"%string; "b"%string])
           1 "b"%string (s2l "y") [1]%R); [exact Hnd | reflexivity | reflexivity | reflexivity].
Defined.


Lemma ms_calls_consistent_witness :
  let cfg := {| collection_name := "docs"; embedding_dimension := 2;
                vs_distance_metric := "cosine" |} in
  let calls := [CallAdd {| call_texts := [s2l "x"; s2l "y"]; call_embeddings := [[1; 0]%R];
                           call_metadata := None; call_ids := None;
                           call_uuid4 := fun n => if n =? 0 then "a"%string else "b"%string |};
                CallDelete ["b"%string; "c"%string]; CallClear;
                CallAdd {| call_texts := [s2l "z"]; call_embeddings := [[0; 1]%R];
                           call_metadata := None; call_ids := Some ["c"%string];
                           call_uuid4 := fun _ => "d"%string |}] in
  exists st0, memory_store_new cfg = inr st0 /\
  (forall id, ms_get_by_id (ms_calls st0 calls) id <> None) /\
  total_texts (ms_get_stats cfg (ms_calls st0 calls)) =
    total_embeddings (ms_get_stats cfg (ms_calls st0 calls)) /\
  (forall q k f, Forall (fun kv => length (snd kv) = length q) (ms_embeddings (ms_calls st0 calls)) ->
     exists res, ms_search (ms_calls st0 calls) q k f = Some res).
Proof.
  intros cfg calls; eexists; split; [reflexivity|].
  apply (ms_calls_consistent cfg _ calls); reflexivity.
Defined.

Lemma mv_results_scores {Obj} (st : MVStore Obj) ranked :
  forall pos res, mv_results st pos ranked = Some res -> map sr_score res = map snd ranked.
Proof.
  induction ranked as [|[idx s] rk IH]; simpl; intros pos res H; [injection H as <-; reflexivity|].
  destruct (nth_error (mv_texts st) idx); [|discriminate].
  destruct (nth_error (mv_metadatas st) idx); [|discriminate].
  destruct (mv_results st (S pos) rk) as [l|] eqn:E; [|discriminate].
  injection H as <-; simpl; f_equal; apply (IH _ _ E).
Qed.

Lemma mv_candidates_spec {Obj} (items : Obj -> Meta) (st : MVStore Obj) ms filters sims :
  forall i l, mv_candidates items st ms filters i sims = Some l ->
  forall j s, In (j, s) l ->
    i <= j /\ nth_error sims (j - i) = Some s /\ (ms <= s)%R /\
    (is_nonempty_list filters = true ->
     exists m, nth_error (mv_metadatas st) j = Some m /\ matches_filter (items m) filters = true).
Proof.
  induction sims as [|x r IH]; intros i l H j s Hin; simpl in H.
  - injection H as <-; destruct Hin.
  - assert (Hrest : forall l', mv_candidates items st ms filters (S i) r = Some l' ->
              In (j, s) l' ->
              i <= j /\ nth_error (x :: r) (j - i) = Some s /\ (ms <= s)%R /\
              (is_nonempty_list filters = true ->
               exists m, nth_error (mv_metadatas st) j = Some m /\
                         matches_filter (items m) filters = true)).
    { intros l' E Hl'; destruct (IH _ _ E j s Hl') as (H1 & H2 & H3 & H4).
      split; [lia|]; split; [|split; assumption].
      replace (j - i) with (S (j - S i)) by lia; exact H2. }
    destruct (mv_candidates items st ms filters (S i) r) as [l'|] eqn:E;
      [|destruct (is_nonempty_list filters); [destruct (nth_error _ i); [|discriminate]|];
        repeat (destruct (negb _) || destruct (Rleb _ _)); discriminate].
    destruct (is_nonempty_list filters) eqn:Ef.
    + destruct (nth_error (mv_metadatas st) i) as [m|] eqn:Em; [|discriminate].
      destruct (matches_filter (items m) filters) eqn:Emf; simpl in H;
        [|injection H as <-; apply (Hrest l' eq_refl Hin)].
      destruct (Rleb ms x) eqn:Er; simpl in H; injection H as <-;
        [|apply (Hrest l' eq_refl Hin)].
      destruct Hin as [Heq|Hin]; [|apply (Hrest l' eq_refl Hin)].
      injection Heq as <- <-; rewrite Nat.sub_diag; split; [lia|]; split; [reflexivity|].
      split; [apply Rleb_spec, Er|]; intros _; exists m; split; assumption.
    + destruct (Rleb ms x) eqn:Er; simpl in H; injection H as <-;
        [|apply (Hrest l' eq_refl Hin)].
      destruct Hin as [Heq|Hin]; [|apply (Hrest l' eq_refl Hin)].
      injection Heq as <- <-; rewrite Nat.sub_diag; split; [lia|]; split; [reflexivity|].
      split; [apply Rleb_spec, Er | discriminate].
Qed.

Lemma similarity_search_spec {Obj} (items : Obj -> Meta) (st : MVStore Obj) q k ms filters res :
  similarity_search items st q k ms filters = Some res ->
  Sorted Rge (map sr_score res) /\ ((0 <= k)%Z -> length res <= Z.to_nat k) /\
  (forall i r, nth_error res i = Some r ->
     exists idx e, nth_error (mv_embeddings st) idx = Some e /\
       nth_error (mv_texts st) idx = Some (text (sr_chunk r)) /\
       nth_error (mv_metadatas st) idx = Some (metadata (sr_chunk r)) /\
       sr_score r = dot_aux e q /\ (ms <= sr_score r)%R /\
       (is_nonempty_list filters = true ->
        matches_filter (items (metadata (sr_chunk r))) filters = true)).
Proof.
  unfold similarity_search; intros H.
  destruct (mv_embeddings st) as [|e0 es] eqn:Ees.
  { injection H as <-; split; [constructor|]; split; [simpl; lia|].
    intros i r Hi; destruct i; discriminate. }
  destruct (forallb _ _); [|discriminate].
  destruct (mv_candidates _ _ _ _ _ _) as [l|] eqn:El; [|discriminate].
  set (ranked := py_take k (sort_desc snd l)) in H.
  split; [|split].
  - rewrite (mv_results_scores st ranked 0 res H).
    apply (sorted_map_key (ge_key snd)); [intros a b Hab; unfold ge_key in Hab; apply Rle_ge, Hab|].
    apply py_take_sorted, sort_desc_sorted.
  - intros Hk; rewrite <- (length_map sr_score res), (mv_results_scores st ranked 0 res H),
      length_map; apply length_py_take, Hk.
  - intros i r Hi.
    destruct (mv_results_shape st ranked 0 res H i r Hi) as (idx & t & m & Hr & Ht & Hm & Hc).
    apply nth_error_In, py_take_incl, (Permutation_in _ (sort_desc_perm snd l)) in Hr.
    destruct (mv_candidates_spec items st ms filters _ 0 l El idx (sr_score r) Hr)
      as (_ & Hs & Hms & Hf).
    rewrite Nat.sub_0_r, nth_error_map in Hs.
    destruct (nth_error (e0 :: es) idx) as [e|] eqn:Ee; [|discriminate]; injection Hs as Hs.
    exists idx, e; rewrite Hc; simpl.
    split; [exact Ee|]; split; [exact Ht|]; split; [exact Hm|].
    split; [symmetry; exact Hs|]; split; [exact Hms|].
    intros Hne; destruct (Hf Hne) as (m' & Hm' & Hmf); congruence.
Qed.

Section RetrievalLemmas.
Context {Obj : Type}.
Implicit Types (cs l : list (RetrievedChunk Obj)).

Lemma insert_desc_head {A} (key : A -> R) x (xs : list A) :
  HdRel (ge_key key) x xs -> insert_desc key x xs = x :: xs.
Proof.
  intros H; destruct xs as [|y r]; [reflexivity|]; simpl.
  inversion H as [|? ? Hxy]; unfold ge_key in Hxy.
  rewrite Rltb_false by exact Hxy; reflexivity.
Qed.

Lemma sort_desc_id {A} (key : A -> R) (xs : list A) :
  Sorted (ge_key key) xs -> sort_desc key xs = xs.
Proof.
  induction 1 as [|x xs Hs IH Hh]; [reflexivity|].
  unfold sort_desc in *; simpl; rewrite IH; apply insert_desc_head, Hh.
Qed.

Lemma renumber_renumber i j l : renumber i (renumber j l) = renumber i l.
Proof. revert i j; induction l as [|c l IH]; intros i j; simpl; [reflexivity | rewrite IH; reflexivity]. Qed.

Lemma renumber_similarity i l : map similarity (renumber i l) = map similarity l.
Proof. revert i; induction l as [|c l IH]; intros i; simpl; [reflexivity | rewrite IH; reflexivity]. Qed.

Lemma renumber_ranks i l : map rank (renumber i l) = seq (S i) (length l).
Proof. revert i; induction l as [|c l IH]; intros i; simpl; [reflexivity | rewrite IH; reflexivity]. Qed.

Lemma length_renumber i l : length (renumber i l) = length l.
Proof. revert i; induction l as [|c l IH]; intros i; simpl; [reflexivity | rewrite IH; reflexivity]. Qed.

Lemma Forall_renumber (P : RetrievedChunk Obj -> Prop) i l :
  (forall j c, P c -> P (set_rank j c)) -> Forall P l -> Forall P (renumber i l).
Proof.
  intros HP H; revert i; induction H as [|c l Hc Hl IH]; intros i; simpl; constructor;
    [apply HP, Hc | apply IH].
Qed.

Lemma Sorted_similarity_key l :
  Sorted Rge (map similarity l) <-> Sorted (ge_key similarity) l.
Proof.
  induction l as [|c l IH]; simpl; [split; constructor|].
  split; intros H; apply Sorted_inv in H as [Hs Hh]; constructor; try apply IH, Hs.
  - destruct l; constructor; inversion Hh; unfold ge_key; apply Rge_le; assumption.
  - destruct l; simpl; constructor; inversion Hh as [|? ? Hle]; unfold ge_key in Hle;
      apply Rle_ge, Hle.
Qed.

Lemma StronglySorted_remove {A} (Rel : A -> A -> Prop) a c b :
  StronglySorted Rel (a ++ c :: b) -> StronglySorted Rel (a ++ b).
Proof.
  induction a as [|x a IH]; simpl; intros H.
  - apply StronglySorted_inv in H as [H _]; exact H.
  - apply StronglySorted_inv in H as [H1 H2]; constructor; [apply IH, H1|].
    rewrite Forall_app in H2 |- *; destruct H2 as [H2 H3]; split; [exact H2|].
    inversion H3; assumption.
Qed.

Lemma dedup_loop_sorted (embed : pystr -> list R) (Rel : RetrievedChunk Obj -> RetrievedChunk Obj -> Prop)
  thr cs : forall acc out,
  StronglySorted Rel (fst acc ++ cs) -> dedup_loop embed thr cs acc = Some out ->
  StronglySorted Rel (fst out).
Proof.
  induction cs as [|c cs IH]; intros [acc seen] out Hs H; simpl in H.
  - injection H as <-; rewrite app_nil_r in Hs; exact Hs.
  - destruct (dup_check thr _ _) as [[|]|]; [| |discriminate].
    + apply (IH _ _ (StronglySorted_remove _ _ _ _ Hs) H).
    + refine (IH _ _ _ H); simpl; rewrite <- app_assoc; exact Hs.
Qed.

Lemma Forall_dedup_loop (embed : pystr -> list R) (P : RetrievedChunk Obj -> Prop) thr cs :
  forall acc out, Forall P (fst acc ++ cs) -> dedup_loop embed thr cs acc = Some out ->
  Forall P (fst out).
Proof.
  induction cs as [|c cs IH]; intros [acc seen] out Hs H; simpl in H.
  - injection H as <-; rewrite app_nil_r in Hs; exact Hs.
  - simpl in Hs; apply Forall_app in Hs as [H1 H2]; inversion H2; subst.
    destruct (dup_check thr _ _) as [[|]|]; [| |discriminate].
    + refine (IH _ _ _ H); simpl; apply Forall_app; split; assumption.
    + refine (IH _ _ _ H); simpl; rewrite <- app_assoc; apply Forall_app; split;
        [assumption | constructor; assumption].
Qed.

Lemma ge_key_trans (a b c : RetrievedChunk Obj) :
  ge_key similarity a b -> ge_key similarity b c -> ge_key similarity a c.
Proof. unfold ge_key; intros H1 H2; lra. Qed.

Lemma filter_duplicates_sorted (embed : pystr -> list R) thr cs out :
  Sorted (ge_key similarity) cs -> filter_duplicates_fn embed thr cs = Some out ->
  Sorted (ge_key similarity) out.
Proof.
  intros Hs H; unfold filter_duplicates_fn in H; destruct cs as [|c cs].
  - injection H as <-; constructor.
  - destruct (dedup_loop _ _ _ _) as [o|] eqn:E; [|discriminate]; injection H as <-.
    apply StronglySorted_Sorted, (dedup_loop_sorted embed _ thr (c :: cs) ([], []) o); [|exact E].
    apply Sorted_StronglySorted; [exact ge_key_trans | exact Hs].
Qed.

Lemma Forall_filter_duplicates (embed : pystr -> list R) (P : RetrievedChunk Obj -> Prop) thr cs out :
  Forall P cs -> filter_duplicates_fn embed thr cs = Some out -> Forall P out.
Proof.
  intros Hs H; unfold filter_duplicates_fn in H; destruct cs as [|c cs].
  - injection H as <-; constructor.
  - destruct (dedup_loop _ _ _ _) as [o|] eqn:E; [|discriminate]; injection H as <-.
    apply (Forall_dedup_loop embed P thr (c :: cs) ([], []) o); [exact Hs | exact E].
Qed.

Lemma rerank_sorted_id l : Sorted (ge_key similarity) l -> rerank l = renumber 0 l.
Proof. intros H; unfold rerank; rewrite sort_desc_id by exact H; reflexivity. Qed.

End RetrievalLemmas.

Lemma firstn_seq' n : forall s len, firstn n (seq s len) = seq s (Nat.min n len).
Proof.
  induction n as [|n IH]; intros s [|len]; simpl; try reflexivity.
  rewrite IH; reflexivity.
Qed.

Section PipelineLemmas.
Context {Obj : Type} (embed : pystr -> list R).

Lemma stage1_spec cfg results cs (P : RetrievedChunk Obj -> Prop) :
  (forall j c, P c -> P (set_rank j c)) ->
  Forall P (map mk_chunk results) ->
  Sorted Rge (map sr_score results) ->
  (if filter_duplicates cfg
   then option_map (renumber 0) (filter_duplicates_fn embed (duplicate_threshold cfg)
                                   (renumber 0 (map mk_chunk results)))
   else Some (renumber 0 (map mk_chunk results))) = Some cs ->
  Sorted (ge_key similarity) cs /\ renumber 0 cs = cs /\ Forall P cs.
Proof.
  intros HP Hall Hs H.
  assert (Hs0 : Sorted (ge_key similarity) (renumber 0 (map mk_chunk results))).
  { apply Sorted_similarity_key; rewrite renumber_similarity, map_map; exact Hs. }
  assert (Hall0 : Forall P (renumber 0 (map mk_chunk results))) by (apply Forall_renumber; assumption).
  destruct (filter_duplicates cfg).
  - destruct (filter_duplicates_fn _ _ _) as [o|] eqn:E; [|discriminate]; injection H as <-.
    split; [|split].
    + apply Sorted_similarity_key; rewrite renumber_similarity; apply Sorted_similarity_key.
      apply (filter_duplicates_sorted embed _ _ _ Hs0 E).
    + apply renumber_renumber.
    + apply Forall_renumber; [exact HP|]; apply (Forall_filter_duplicates embed P _ _ _ Hall0 E).
  - injection H as <-; split; [exact Hs0|]; split; [apply renumber_renumber | exact Hall0].
Qed.

Lemma retrieve_from_results_spec cfg results out (P : RetrievedChunk Obj -> Prop) :
  (forall j c, P c -> P (set_rank j c)) ->
  Forall P (map mk_chunk results) ->
  Sorted Rge (map sr_score results) ->
  retrieve_from_results embed cfg results = Some out ->
  out = py_take (top_k cfg)
          (match (if filter_duplicates cfg
                  then option_map (renumber 0) (filter_duplicates_fn embed (duplicate_threshold cfg)
                                                  (renumber 0 (map mk_chunk results)))
                  else Some (renumber 0 (map mk_chunk results))) with
           | Some cs => cs | None => [] end) /\
  map rank out = seq 1 (length out) /\
  ((0 <= top_k cfg)%Z -> length out <= Z.to_nat (top_k cfg)) /\
  Sorted Rge (map similarity out) /\ Forall P out.
Proof.
  intros HP Hall Hs H; unfold retrieve_from_results in H; fold (@mk_chunk Obj) in H.
  destruct (if filter_duplicates cfg then _ else _) as [cs|] eqn:E; [|discriminate].
  destruct (stage1_spec cfg results cs P HP Hall Hs E) as (Hs1 & Hr1 & Hp1).
  assert (Hcs : (if rerank_results cfg then renumber 0 (rerank cs) else cs) = cs).
  { destruct (rerank_results cfg); [|reflexivity].
    rewrite rerank_sorted_id by exact Hs1; rewrite renumber_renumber; exact Hr1. }
  rewrite Hcs in H; injection H as <-.
  split; [reflexivity|]; split; [|split; [apply length_py_take|split]].
  - rewrite <- Hr1; unfold py_take; destruct (0 <=? top_k cfg)%Z;
      (rewrite <- firstn_map, renumber_ranks, firstn_seq', length_firstn, length_renumber;
       reflexivity).
  - apply (sorted_map_key (ge_key similarity)); [intros a b Hab; apply Rle_ge, Hab|].
    apply py_take_sorted, Hs1.
  - apply Forall_forall; intros c Hc; apply py_take_incl in Hc.
    rewrite Forall_forall in Hp1; apply Hp1, Hc.
Qed.

End PipelineLemmas.

Lemma renumber_pairs {Obj} i (l : list (RetrievedChunk Obj)) :
  map (fun c => (rc_chunk c, similarity c)) (renumber i l) = map (fun c => (rc_chunk c, similarity c)) l.
Proof. revert i; induction l as [|c l IH]; intros i; simpl; [reflexivity | rewrite IH; reflexivity]. Qed.

Lemma retrieve_from_results_eq {Obj} (embed : pystr -> list R) cfg (results : list (SearchResult Obj)) :
  Sorted Rge (map sr_score results) ->
  retrieve_from_results embed cfg results =
  option_map (py_take (top_k cfg))
    (if filter_duplicates cfg
     then option_map (renumber 0) (filter_duplicates_fn embed (duplicate_threshold cfg)
                                     (renumber 0 (map mk_chunk results)))
     else Some (renumber 0 (map mk_chunk results))).
Proof.
  intros Hs; unfold retrieve_from_results; fold (@mk_chunk Obj).
  destruct (if filter_duplicates cfg then _ else _) as [cs|] eqn:E; [|reflexivity].
  destruct (stage1_spec embed cfg results cs (fun _ => True)) as (Hs1 & Hr1 & _);
    [tauto | apply Forall_forall; tauto | exact Hs | exact E |].
  destruct (rerank_results cfg); [|reflexivity]; simpl.
  rewrite rerank_sorted_id by exact Hs1; rewrite renumber_renumber, Hr1; reflexivity.
Qed.

Lemma dup_check_false thr e seen :
  dup_check thr e seen = Some false -> Forall (fun s => dot_aux e s <= thr)%R seen.
Proof.
  induction seen as [|s r IH]; simpl; intros H; [constructor|].
  unfold np_dot in H; destruct (length e =? length s); [|discriminate].
  destruct (Rltb thr (dot_aux e s)) eqn:E; [discriminate|].
  constructor; [|apply IH, H].
  destruct (Rle_or_lt (dot_aux e s) thr) as [Hle|Hlt]; [exact Hle|].
  apply Rltb_true in Hlt; congruence.
Qed.

Lemma dedup_loop_pairwise {Obj} (embed : pystr -> list R) thr (cs : list (RetrievedChunk Obj)) :
  forall acc out,
  snd acc = map (fun a => normalize (embed (text (rc_chunk a)))) (fst acc) ->
  (forall i j a b, i < j -> nth_error (fst acc) i = Some a -> nth_error (fst acc) j = Some b ->
     (cosine (embed (text (rc_chunk b))) (embed (text (rc_chunk a))) <= thr)%R) ->
  dedup_loop embed thr cs acc = Some out ->
  forall i j a b, i < j -> nth_error (fst out) i = Some a -> nth_error (fst out) j = Some b ->
    (cosine (embed (text (rc_chunk b))) (embed (text (rc_chunk a))) <= thr)%R.
Proof.
  induction cs as [|c cs IH]; intros [acc seen] out Hseen Hpw H; simpl in H, Hseen, Hpw.
  - injection H as <-; exact Hpw.
  - destruct (dup_check thr _ seen) as [[|]|] eqn:Ed; [| |discriminate].
    + apply (IH (acc, seen) out Hseen Hpw H).
    + refine (IH (acc ++ [c], seen ++ [normalize (embed (text (rc_chunk c)))]) out _ _ H);
        [simpl; rewrite Hseen, map_app; reflexivity|].
      simpl; intros i j a b Hij Ha Hb.
      destruct (Nat.lt_ge_cases j (length acc)) as [Hj|Hj].
      * rewrite nth_error_app1 in Ha, Hb by lia; apply (Hpw i j); assumption.
      * rewrite nth_error_app2 in Hb by lia.
        destruct (j - length acc) as [|k] eqn:Ejk; [|destruct k; discriminate].
        injection Hb as <-; rewrite nth_error_app1 in Ha by lia.
        apply dup_check_false in Ed; rewrite Hseen, Forall_map, Forall_forall in Ed.
        rewrite <- dot_normalize; apply Ed; apply nth_error_In with i; exact Ha.
Qed.

(** X9.  [MemoryVectorStore.similarity_search] results are sorted by
    descending score, are at most [k] when [k >= 0], and each one comes from
    a stored index [idx]: its text and metadata are those at [idx], its
    score is the dot product of the embedding at [idx] with the query and is
    at least [min_score], and with a non-empty filter its metadata matches
    the filter. *)
Theorem similarity_search_ranked {Obj} (items : Obj -> Meta) (st : MVStore Obj) q k ms filters res :
  similarity_search items st q k ms filters = Some res ->
  Sorted Rge (map sr_score res) /\ ((0 <= k)%Z -> length res <= Z.to_nat k) /\
  (forall i r, nth_error res i = Some r ->
     exists idx e, nth_error (mv_embeddings st) idx = Some e /\
       nth_error (mv_texts st) idx = Some (text (sr_chunk r)) /\
       nth_error (mv_metadatas st) idx = Some (metadata (sr_chunk r)) /\
       sr_score r = dot_aux e q /\ (ms <= sr_score r)%R /\
       (is_nonempty_list filters = true ->
        matches_filter (items (metadata (sr_chunk r))) filters = true)).
Proof. apply similarity_search_spec. Qed.

(** X10.  [SemanticRetrieval.retrieve] over a [MemoryVectorStore] returns
    chunks ranked 1, 2, ..., n in list order, at most [top_k] of them (when
    [top_k >= 0]), sorted by descending similarity; every chunk has
    similarity at least [min_similarity], equal to the dot product of the
    query embedding with the embedding of a stored index whose text and
    metadata it carries, and matching a non-empty filter. *)
Theorem retrieve_results {Obj} (items : Obj -> Meta) (embed : pystr -> list R) cfg
  (st : MVStore Obj) query filters out :
  retrieve items embed cfg st query filters = Some out ->
  map rank out = seq 1 (length out) /\
  ((0 <= top_k cfg)%Z -> length out <= Z.to_nat (top_k cfg)) /\
  Sorted Rge (map similarity out) /\
  Forall (fun c => (min_similarity cfg <= similarity c)%R /\
     exists idx e, nth_error (mv_embeddings st) idx = Some e /\
       nth_error (mv_texts st) idx = Some (text (rc_chunk c)) /\
       nth_error (mv_metadatas st) idx = Some (metadata (rc_chunk c)) /\
       similarity c = dot_aux e (embed query) /\
       (is_nonempty_list filters = true ->
        matches_filter (items (metadata (rc_chunk c))) filters = true)) out.
Proof.
  unfold retrieve; intros H.
  destruct (similarity_search _ _ _ _ _ _) as [results|] eqn:E; [|discriminate].
  apply similarity_search_spec in E as (Hs & _ & Hr).
  set (P := fun c : RetrievedChunk Obj => (min_similarity cfg <= similarity c)%R /\
     exists idx e, nth_error (mv_embeddings st) idx = Some e /\
       nth_error (mv_texts st) idx = Some (text (rc_chunk c)) /\
       nth_error (mv_metadatas st) idx = Some (metadata (rc_chunk c)) /\
       similarity c = dot_aux e (embed query) /\
       (is_nonempty_list filters = true ->
        matches_filter (items (metadata (rc_chunk c))) filters = true)).
  assert (HP : forall j c, P c -> P (set_rank j c)) by (intros j c Hc; exact Hc).
  assert (Hall : Forall P (map mk_chunk results)).
  { apply Forall_forall; intros c Hc; apply in_map_iff in Hc as (r & <- & Hc).
    apply In_nth_error in Hc as (i & Hi).
    destruct (Hr i r Hi) as (idx & e & H1 & H2 & H3 & H4 & H5 & H6).
    split; [exact H5|]; exists idx, e; auto. }
  destruct (retrieve_from_results_spec embed cfg results out P HP Hall Hs H)
    as (_ & H1 & H2 & H3 & H4).
  split; [exact H1|]; split; [exact H2|]; split; [exact H3|exact H4].
Qed.

(** X11.  The [rerank_results] flag does not change what
    [SemanticRetrieval.retrieve] returns: the chunks reach [_rerank_results]
    already sorted by descending similarity and the sort is stable. *)
Theorem retrieve_rerank_irrelevant {Obj} (items : Obj -> Meta) (embed : pystr -> list R) cfg b
  (st : MVStore Obj) query filters :
  retrieve items embed {| top_k := top_k cfg; min_similarity := min_similarity cfg;
                          rerank_results := b; filter_duplicates := filter_duplicates cfg;
                          duplicate_threshold := duplicate_threshold cfg |} st query filters =
  retrieve items embed cfg st query filters.
Proof.
  unfold retrieve; cbn [top_k min_similarity filter_duplicates].
  destruct (similarity_search _ _ _ _ _ _) as [results|] eqn:E; [|reflexivity].
  apply similarity_search_spec in E as (Hs & _).
  rewrite !retrieve_from_results_eq by exact Hs; reflexivity.
Qed.

(** X12.  [_rerank_results] returns the same chunks with the same
    similarities, sorted by descending similarity, ranked 1..n; on a list
    already sorted by descending similarity it keeps the order. *)
Theorem rerank_sorts {Obj} (cs : list (RetrievedChunk Obj)) :
  map rank (rerank cs) = seq 1 (length cs) /\
  Sorted Rge (map similarity (rerank cs)) /\
  Permutation (map (fun c => (rc_chunk c, similarity c)) (rerank cs))
              (map (fun c => (rc_chunk c, similarity c)) cs) /\
  (Sorted Rge (map similarity cs) ->
   map (fun c => (rc_chunk c, similarity c)) (rerank cs) =
   map (fun c => (rc_chunk c, similarity c)) cs).
Proof.
  unfold rerank; split; [|split; [|split]].
  - rewrite renumber_ranks, (Permutation_length (sort_desc_perm similarity cs)); reflexivity.
  - rewrite renumber_similarity; apply Sorted_similarity_key, sort_desc_sorted.
  - rewrite renumber_pairs; apply Permutation_map, sort_desc_perm.
  - intros H; rewrite renumber_pairs, sort_desc_id; [reflexivity|].
    apply Sorted_similarity_key, H.
Qed.

(** X13.  No two chunks returned by [_filter_duplicates] are near
    duplicates: for positions [i < j] of the result, the cosine similarity of
    the embedding of the later chunk's text with that of the earlier one is
    at most the threshold. *)
Theorem filter_duplicates_pairwise {Obj} (embed : pystr -> list R) thr
  (cs out : list (RetrievedChunk Obj)) :
  filter_duplicates_fn embed thr cs = Some out ->
  forall i j a b, i < j -> nth_error out i = Some a -> nth_error out j = Some b ->
  (cosine (embed (text (rc_chunk b))) (embed (text (rc_chunk a))) <= thr)%R.
Proof.
  unfold filter_duplicates_fn; destruct cs as [|c cs]; intros H.
  - injection H as <-; intros i j a b _ Ha; destruct i; discriminate.
  - destruct (dedup_loop _ _ _ _) as [o|] eqn:E; [|discriminate]; injection H as <-.
    apply (dedup_loop_pairwise embed thr (c :: cs) ([], []) o); [reflexivity| |exact E].
    intros i j a b _ Ha; destruct i; discriminate.
Qed.

Lemma similarity_search_ranked_witness :
  let st := {| mv_texts := [s2l "a"]; mv_embeddings := [[1; 0]%R];
               mv_metadatas := [[("k"%string, "v"%string)]] |} in
  exists res,
    similarity_search (fun m : Meta => m) st [1; 0]%R 3 0 [("k"%string, "v"%string)] = Some res /\
    length res = 1 /\
    Sorted Rge (map sr_score res) /\ ((0 <= 3)%Z -> length res <= Z.to_nat 3) /\
    (forall i r, nth_error res i = Some r ->
       exists idx e, nth_error (mv_embeddings st) idx = Some e /\
         nth_error (mv_texts st) idx = Some (text (sr_chunk r)) /\
         nth_error (mv_metadatas st) idx = Some (metadata (sr_chunk r)) /\
         sr_score r = dot_aux e [1; 0]%R /\ (0 <= sr_score r)%R /\
         (is_nonempty_list [("k"%string, "v"%string)] = true ->
          matches_filter (metadata (sr_chunk r)) [("k"%string, "v"%string)] = true)).
Proof.
  intros st.
  assert (E : exists res, similarity_search (fun m : Meta => m) st [1; 0]%R 3 0
                            [("k"%string, "v"%string)] = Some res /\ length res = 1).
  { eexists; split.
    - unfold similarity_search; cbn -[Rleb]; rewrite Rleb_true by lra; reflexivity.
    - reflexivity. }
  destruct E as (res & E & L); exists res; split; [exact E|]; split; [exact L|].
  exact (similarity_search_ranked (fun m : Meta => m) st [1; 0]%R 3 0 _ res E).
Defined.

Lemma retrieve_results_witness :
  let st := {| mv_texts := [s2l "a"]; mv_embeddings := [[1; 0]%R];
               mv_metadatas := [[("k"%string, "v"%string)]] |} in
  let cfg := {| top_k := 3; min_similarity := 0; rerank_results := true;
                filter_duplicates := false; duplicate_threshold := (1/2)%R |} in
  let embed := fun _ : pystr => [1; 0]%R in
  exists out,
    retrieve (fun m : Meta => m) embed cfg st (s2l "q") [] = Some out /\ length out = 1 /\
    map rank out = seq 1 (length out) /\
    ((0 <= top_k cfg)%Z -> length out <= Z.to_nat (top_k cfg)) /\
    Sorted Rge (map similarity out) /\
    Forall (fun c => (min_similarity cfg <= similarity c)%R /\
       exists idx e, nth_error (mv_embeddings st) idx = Some e /\
         nth_error (mv_texts st) idx = Some (text (rc_chunk c)) /\
         nth_error (mv_metadatas st) idx = Some (metadata (rc_chunk c)) /\
         similarity c = dot_aux e (embed (s2l "q")) /\
         (is_nonempty_list (@nil (string * string)) = true ->
          matches_filter (metadata (rc_chunk c)) [] = true)) out.
Proof.
  intros st cfg embed.
  assert (E : exists out, retrieve (fun m : Meta => m) embed cfg st (s2l "q") [] = Some out /\
                          length out = 1).
  { eexists; split.
    - unfold retrieve, similarity_search; cbn -[Rleb]; rewrite Rleb_true by lra; reflexivity.
    - reflexivity. }
  destruct E as (out & E & L); exists out; split; [exact E|]; split; [exact L|].
  exact (retrieve_results (fun m : Meta => m) embed cfg st (s2l "q") [] out E).
Defined.

Lemma filter_duplicates_pairwise_witness :
  let c := fun t : string =>
    {| rc_chunk := {| text := s2l t; metadata := @nil (string * string); start_char := 0%Z;
                      end_char := 1%Z; chunk_index := 0 |};
       similarity := 1%R; rank := 1 |} in
  let embed := fun t : pystr => if (length t =? 1) then [1; 0]%R else [0; 1]%R in
  exists out,
    filter_duplicates_fn embed (1/2)%R [c "a"%string; c "bb"%string] = Some out /\
    length out = 2 /\
    (forall i j a b, i < j -> nth_error out i = Some a -> nth_error out j = Some b ->
       (cosine (embed (text (rc_chunk b))) (embed (text (rc_chunk a))) <= 1/2)%R).
Proof.
  intros c embed.
  assert (E : exists out, filter_duplicates_fn embed (1/2)%R [c "a"%string; c "bb"%string]
                            = Some out /\ length out = 2).
  { eexists; split.
    - unfold filter_duplicates_fn; cbn -[Rltb normalize].
      unfold normalize, l2norm; cbn -[Rltb sqrt].
      rewrite Rltb_false; [reflexivity|].
      replace (0 * 0 + (1 * 1 + 0))%R with 1%R by ring; rewrite sqrt_1.
      replace (1 * 1 + (0 * 0 + 0))%R with 1%R by ring; rewrite sqrt_1; lra.
    - reflexivity. }
  destruct E as (out & E & L); exists out; split; [exact E|]; split; [exact L|].
  exact (filter_duplicates_pairwise embed (1/2)%R _ out E).
Defined.

Lemma find_aux_sound w s : forall k,
  find_aux w s k = (-1)%Z \/
  exists i, find_aux w s k = Z.of_nat (k + i) /\ firstn (length w) (skipn i s) = w.
Proof.
  induction s as [|x r IH]; intros k; simpl.
  - destruct (prefixb w []) eqn:E; [|left; reflexivity].
    right; exists 0; split; [f_equal; lia | apply prefixb_firstn, E].
  - destruct (prefixb w (x :: r)) eqn:E.
    + right; exists 0; split; [f_equal; lia | apply prefixb_firstn, E].
    + destruct (IH (S k)) as [H|(i & Hi & Hf)]; [left; exact H|].
      right; exists (S i); split; [rewrite Hi; f_equal; lia | exact Hf].
Qed.

Lemma py_find_sound t w cur :
  py_find t w cur = (-1)%Z \/
  exists i, py_find t w cur = Z.of_nat i /\ slice t i (i + length w) = w.
Proof.
  unfold py_find; destruct (cur <=? length t); [|left; reflexivity].
  destruct (find_aux_sound w (skipn cur t) cur) as [H|(i & Hi & Hf)]; [left; exact H|].
  right; exists (cur + i); split; [exact Hi|].
  unfold slice; rewrite skipn_skipn in Hf; replace (cur + i + length w - (cur + i)) with (length w) by lia.
  replace (cur + i) with (i + cur) by lia; exact Hf.
Qed.

Section RecursiveChunks.
Context {M : Type} (cfg : ChunkConfig) (md : M) (t : pystr) (P : TextChunk M -> Prop).

(** Every chunk the recursive chunker appends is located with [text.find]. *)
Hypothesis HP : forall w i,
  P {| text := w; metadata := md; start_char := py_find t w 0;
       end_char := (py_find t w 0 + Z.of_nat (length w))%Z; chunk_index := i |}.

Lemma Forall_emit_find w (st : Emitter M) :
  Forall P (chunks st) -> Forall P (chunks (emit md w (py_find t w 0) st)).
Proof. intros H; simpl; apply Forall_app; split; [exact H | constructor; [apply HP | constructor]]. Qed.

Lemma Forall_sentence_step rs s rs' :
  Forall P (chunks (em rs)) -> sentence_step cfg md t rs s = Some rs' -> Forall P (chunks (em rs')).
Proof.
  unfold sentence_step; intros H E.
  destruct (chunk_size cfg <? length s).
  - destruct (range_pieces _ _) as [pieces|]; [|discriminate]; injection E as <-; simpl.
    revert H; generalize (em rs); induction pieces as [|p ps IH]; intros st H; simpl; [exact H|].
    apply IH; apply Forall_emit_find, H.
  - destruct (chunk_size cfg <? _); injection E as <-; simpl; [apply Forall_emit_find|]; exact H.
Qed.

Lemma Forall_subsection_step rs s rs' :
  Forall P (chunks (em rs)) -> subsection_step cfg md t rs s = Some rs' -> Forall P (chunks (em rs')).
Proof.
  unfold subsection_step; intros H E.
  destruct (negb (is_nonempty (strip s))); [injection E as <-; exact H|].
  cbv zeta in E.
  match type of E with
  | (if _ then fold_opt _ _ ?r else _) = _ =>
      assert (H1 : Forall P (chunks (em r)))
        by (destruct (_ && _); simpl; [apply Forall_emit_find|]; exact H)
  end.
  destruct (chunk_size cfg <? _).
  - apply (fold_opt_inv (fun rs => Forall P (chunks (em rs))) _ Forall_sentence_step _ _ _ H1 E).
  - injection E as <-; exact H1.
Qed.

Lemma Forall_section_step st s st' :
  Forall P (chunks st) -> section_step cfg md t st s = Some st' -> Forall P (chunks st').
Proof.
  unfold section_step; intros H E.
  destruct (negb (is_nonempty (strip s))); [injection E as <-; exact H|].
  destruct (length (strip s) <=? chunk_size cfg); [injection E as <-; apply Forall_emit_find, H|].
  destruct (fold_opt _ _ _) as [rs|] eqn:Ef; [|discriminate]; injection E as <-.
  pose proof (fold_opt_inv (fun rs => Forall P (chunks (em rs))) _ Forall_subsection_step _ _ _
                (H : Forall P (chunks (em {| em := st; current_chunk := []; current_length := 0 |})))
                Ef) as Hrs.
  destruct (is_nonempty_list _); [apply Forall_emit_find|]; exact Hrs.
Qed.

Lemma Forall_recursive_chunk_text cs :
  recursive_chunk_text cfg t md = Some cs -> Forall P cs.
Proof.
  unfold recursive_chunk_text; intros H.
  assert (H' : cs = [] \/ option_map chunks (fold_opt (section_step cfg md t) (major_split t) emitter0)
                         = Some cs) by (clear - H; destruct t; [left | right]; congruence).
  destruct H' as [->|H']; [constructor|].
  destruct (fold_opt _ _ _) as [st|] eqn:E; [|discriminate]; injection H' as <-.
  apply (fold_opt_inv (fun st => Forall P (chunks st)) _ Forall_section_step _ _ _
           (Forall_nil P : Forall P (chunks (@emitter0 M))) E).
Qed.

End RecursiveChunks.

(** X14.  Every chunk of [RecursiveChunker.chunk_text] has
    [end_char = start_char + len(chunk.text)], and its [start_char] is
    either -1 or a genuine position: [0 <= start_char] and
    [text[start_char:end_char] == chunk.text]. *)
Theorem recursive_chunk_text_offsets {M} cfg t (md : M) cs :
  recursive_chunk_text cfg t md = Some cs ->
  Forall (fun c => end_char c = (start_char c + Z.of_nat (length (text c)))%Z /\
                   (start_char c = (-1)%Z \/
                    ((0 <= start_char c)%Z /\
                     slice t (Z.to_nat (start_char c)) (Z.to_nat (end_char c)) = text c))) cs.
Proof.
  apply Forall_recursive_chunk_text; intros w i; simpl; split; [reflexivity|].
  destruct (py_find_sound t w 0) as [H|(k & Hk & Hs)]; [left; exact H|right].
  rewrite Hk; split; [lia|].
  rewrite <- Nat2Z.inj_add, !Nat2Z.id; exact Hs.
Qed.

Lemma recursive_chunk_text_offsets_witness :
  exists cs,
    recursive_chunk_text (cfg_of (chunk_config_new 10 2 1 true true))
      (s2l "ab cd." ++ [nl] ++ s2l "ef gh ij kl. mn") tt = Some cs /\ length cs = 4 /\
    Forall (fun c => end_char c = (start_char c + Z.of_nat (length (text c)))%Z /\
                     (start_char c = (-1)%Z \/
                      ((0 <= start_char c)%Z /\
                       slice (s2l "ab cd." ++ [nl] ++ s2l "ef gh ij kl. mn")
                         (Z.to_nat (start_char c)) (Z.to_nat (end_char c)) = text c))) cs.
Proof.
  destruct (recursive_chunk_text (cfg_of (chunk_config_new 10 2 1 true true))
              (s2l "ab cd." ++ [nl] ++ s2l "ef gh ij kl. mn") tt) as [cs|] eqn:E;
    [|vm_compute in E; discriminate].
  exists cs; split; [reflexivity|]; split;
    [pose proof E as E'; vm_compute in E'; injection E' as <-; reflexivity|].
  revert E; apply recursive_chunk_text_offsets.
Defined.

(** X15.  When the three lists of a [MemoryVectorStore] have equal
    lengths, [add_text] keeps them equal, and [add_texts] keeps them equal
    exactly when the embeddings and metadatas it appends have one entry per
    text; on such a store [similarity_search] succeeds whenever every stored
    embedding has the query's dimension. *)
Theorem mv_store_alignment {Obj} (items : Obj -> Meta) (st : MVStore Obj) :
  length (mv_texts st) = length (mv_embeddings st) ->
  length (mv_metadatas st) = length (mv_embeddings st) ->
  (forall t metadata embedding provider_embedding empty,
     let st' := mv_add_text items st t metadata embedding provider_embedding empty in
     length (mv_texts st') = length (mv_embeddings st') /\
     length (mv_metadatas st') = length (mv_embeddings st')) /\
  (forall texts metadatas embeddings provider_embeddings empties,
     let st' := mv_add_texts st texts metadatas embeddings provider_embeddings empties in
     (length (mv_texts st') = length (mv_embeddings st') /\
      length (mv_metadatas st') = length (mv_embeddings st')) <->
     (length (match embeddings with Some e => e | None => provider_embeddings end) = length texts /\
      length (match metadatas with Some m => m | None => firstn (length texts) empties end)
        = length texts)) /\
  (forall q k min_score filters,
     Forall (fun e => length e = length q) (mv_embeddings st) ->
     exists res, similarity_search items st q k min_score filters = Some res).
Proof.
  intros Ht Hm; split; [|split].
  - intros; simpl; rewrite !length_app; simpl; lia.
  - intros texts mds es pes empties; simpl; rewrite !length_app; lia.
  - intros q k ms f Hl.
    destruct (similarity_search_some items st q k ms f (length q) Ht Hm eq_refl Hl) as (res & E & _).
    exists res; exact E.
Qed.

Lemma mv_store_alignment_witness :
  let st := {| mv_texts := [s2l "a"]; mv_embeddings := [[1; 0]%R];
               mv_metadatas := [[("k"%string, "v"%string)]] |} in
  length (mv_texts st) = length (mv_embeddings st) /\
  length (mv_metadatas st) = length (mv_embeddings st) /\
  (forall t metadata embedding provider_embedding empty,
     let st' := mv_add_text (fun m : Meta => m) st t metadata embedding provider_embedding empty in
     length (mv_texts st') = length (mv_embeddings st') /\
     length (mv_metadatas st') = length (mv_embeddings st')) /\
  (forall texts metadatas embeddings provider_embeddings empties,
     let st' := mv_add_texts st texts metadatas embeddings provider_embeddings empties in
     (length (mv_texts st') = length (mv_embeddings st') /\
      length (mv_metadatas st') = length (mv_embeddings st')) <->
     (length (match embeddings with Some e => e | None => provider_embeddings end) = length texts /\
      length (match metadatas with Some m => m | None => firstn (length texts) empties end)
        = length texts)) /\
  (forall q k min_score filters,
     Forall (fun e => length e = length q) (mv_embeddings st) ->
     exists res, similarity_search (fun m : Meta => m) st q k min_score filters = Some res).
Proof.
  intros st; split; [reflexivity|]; split; [reflexivity|].
  apply (mv_store_alignment (fun m : Meta => m) st); reflexivity.
Defined.
